(** * ncman: loading and parsing of troff manual pages (src/man/main.c)

    A shallow embedding of the loader ([map_troff_data], [map_gzipped_data]),
    the macro trie ([trofftrie], [get_type]), the line scanner
    ([troff_parse]) and the title lexer ([lex_title]), with the properties
    of the page parser stated over it.

    Conventions of the embedding:
    - an [unsigned char] is a [nat] (0..255 in every buffer of the program);
    - a pointer into the mapped buffer is an offset ([nat]) into a
      [list uchar]; a read outside the list is reported as [ReadPast];
    - the array [next[0x80]] of a trie node is a list of 128 slots; an index
      outside it is reported as [SlotRange];
    - [size_t] counters that the code decrements are [Z], and [size_t] is
      64 bits wide where a negative difference of pointers is passed as one;
    - [char] is signed, and [isspace] is the one of the C locale;
    - [malloc] and [strndup] are taken to return memory. *)

From Stdlib Require Import ZArith Lia String Ascii.
From stdpp Require Import base option list.

Open Scope nat_scope.

(** ** Bytes and C strings *)

Abbreviation uchar := nat (only parsing).

Fixpoint bytes (s : string) : list uchar :=
  match s with
  | EmptyString => []
  | String a s' => nat_of_ascii a :: bytes s'
  end.

Definition NUL : uchar := 0.
Definition NL : uchar := 10.
Definition DOT : uchar := 46.
Definition DQUOTE : uchar := 34.

(** [isspace] in the C locale: space, \t, \n, \v, \f, \r. *)
Definition isspace (c : uchar) : bool :=
  (c =? 32) || ((9 <=? c) && (c <=? 13)).

(** The value of a byte read through a [const char*] (signed char). *)
Definition as_char (c : uchar) : Z :=
  if 128 <=? c then (Z.of_nat c - 256)%Z else Z.of_nat c.

(** ** Undefined accesses *)

Inductive fault :=
  | ReadPast (off : nat)     (* a byte read at an offset outside the buffer *)
  | SlotRange (slot : nat)   (* next[slot] with slot outside the array *)
  | NullDeref                (* a NULL pointer dereferenced *)
  | NoFuel.                  (* the bound on loop iterations was too small *)

Inductive access (A : Type) :=
  | Val (a : A)
  | Undef (f : fault).
Arguments Val {A} a.
Arguments Undef {A} f.

#[global] Instance access_bind : MBind access := fun A B k m =>
  match m with
  | Val a => k a
  | Undef f => Undef f
  end.

(** ** Macro descriptors *)

Inductive ltypes :=
  | LINE_UNKNOWN
  | LINE_COMMENT
  | LINE_B | LINE_BI | LINE_BR | LINE_I | LINE_IB | LINE_IR
  | LINE_RB | LINE_RI | LINE_SB | LINE_SM
  | LINE_EE | LINE_EX | LINE_RE | LINE_RS
  | LINE_SH | LINE_SS | LINE_TH
  | LINE_IP | LINE_LP | LINE_P | LINE_PP
  | LINE_TP | LINE_TQ
  | LINE_ME | LINE_MT | LINE_UE | LINE_UR
  | LINE_OP | LINE_SY | LINE_YS.

Inductive ttypes :=
  | TROFF_UNKNOWN
  | TROFF_COMMENT
  | TROFF_FONT
  | TROFF_STRUCTURE
  | TROFF_PARAGRAPH
  | TROFF_HYPERLINK
  | TROFF_SYNOPSIS.

Record trofftype := {
  ltype : ltypes;
  symbol : list uchar;
  ttype : ttypes;
}.

#[global] Instance ltypes_eq_dec : EqDecision ltypes.
Proof. solve_decision. Defined.
#[global] Instance ttypes_eq_dec : EqDecision ttypes.
Proof. solve_decision. Defined.
#[global] Instance trofftype_eq_dec : EqDecision trofftype.
Proof. solve_decision. Defined.

Definition is_TH (t : trofftype) : bool := bool_decide (ltype t = LINE_TH).

(** The static table. The symbol of the comment macro is backslash, quote. *)
Definition trofftypes : list trofftype :=
  [ {| ltype := LINE_UNKNOWN; symbol := bytes ""; ttype := TROFF_UNKNOWN |};
    {| ltype := LINE_COMMENT; symbol := [92; 34]; ttype := TROFF_COMMENT |};
    {| ltype := LINE_B; symbol := bytes "B"; ttype := TROFF_FONT |};
    {| ltype := LINE_BI; symbol := bytes "BI"; ttype := TROFF_FONT |};
    {| ltype := LINE_BR; symbol := bytes "BR"; ttype := TROFF_FONT |};
    {| ltype := LINE_I; symbol := bytes "I"; ttype := TROFF_FONT |};
    {| ltype := LINE_IB; symbol := bytes "IB"; ttype := TROFF_FONT |};
    {| ltype := LINE_IR; symbol := bytes "IR"; ttype := TROFF_FONT |};
    {| ltype := LINE_EE; symbol := bytes "EE"; ttype := TROFF_STRUCTURE |};
    {| ltype := LINE_EX; symbol := bytes "EX"; ttype := TROFF_STRUCTURE |};
    {| ltype := LINE_RE; symbol := bytes "RE"; ttype := TROFF_STRUCTURE |};
    {| ltype := LINE_RS; symbol := bytes "RS"; ttype := TROFF_STRUCTURE |};
    {| ltype := LINE_SH; symbol := bytes "SH"; ttype := TROFF_STRUCTURE |};
    {| ltype := LINE_SS; symbol := bytes "SS"; ttype := TROFF_STRUCTURE |};
    {| ltype := LINE_TH; symbol := bytes "TH"; ttype := TROFF_STRUCTURE |};
    {| ltype := LINE_IP; symbol := bytes "IP"; ttype := TROFF_PARAGRAPH |};
    {| ltype := LINE_LP; symbol := bytes "LP"; ttype := TROFF_PARAGRAPH |};
    {| ltype := LINE_P; symbol := bytes "P"; ttype := TROFF_PARAGRAPH |};
    {| ltype := LINE_PP; symbol := bytes "PP"; ttype := TROFF_PARAGRAPH |};
    {| ltype := LINE_TP; symbol := bytes "TP"; ttype := TROFF_PARAGRAPH |};
    {| ltype := LINE_TQ; symbol := bytes "TQ"; ttype := TROFF_PARAGRAPH |};
    {| ltype := LINE_ME; symbol := bytes "ME"; ttype := TROFF_HYPERLINK |};
    {| ltype := LINE_MT; symbol := bytes "MT"; ttype := TROFF_HYPERLINK |};
    {| ltype := LINE_UE; symbol := bytes "UE"; ttype := TROFF_HYPERLINK |};
    {| ltype := LINE_UR; symbol := bytes "UR"; ttype := TROFF_HYPERLINK |};
    {| ltype := LINE_OP; symbol := bytes "OP"; ttype := TROFF_SYNOPSIS |};
    {| ltype := LINE_SY; symbol := bytes "SY"; ttype := TROFF_SYNOPSIS |};
    {| ltype := LINE_YS; symbol := bytes "YS"; ttype := TROFF_SYNOPSIS |} ].

(** ** The trie *)

(** [struct troffnode]: 128 child slots and an optional descriptor. *)
#[warnings="-register-all"]
Inductive troffnode :=
  TroffNode (next : list (option troffnode)) (node_ttype : option trofftype).

Definition next (n : troffnode) : list (option troffnode) :=
  match n with TroffNode nx _ => nx end.
Definition node_ttype (n : troffnode) : option trofftype :=
  match n with TroffNode _ t => t end.

(** sizeof(root->next) / sizeof( *root->next) *)
Definition NSLOTS : nat := 128.

(** A node after [memset(n, 0, sizeof( *n))]. *)
Definition zeroed_node : troffnode := TroffNode (replicate NSLOTS None) None.

Inductive trie_error :=
  | IllegalSymbol (sym : list uchar)
  | DuplicateCommand (sym other : list uchar)
  | TrieFault (f : fault).

(** The inner loop of [trofftrie] for the descriptor [t]: walk the rest [s]
    of its symbol down from [n], creating the missing nodes, and tag the
    node that is reached. *)
Fixpoint trie_insert (t : trofftype) (s : list uchar) (n : troffnode)
  : trie_error + troffnode :=
  match s with
  | [] =>
      match node_ttype n with
      | Some o => inl (DuplicateCommand (symbol t) (symbol o))
      | None => inr (TroffNode (next n) (Some t))
      end
  | c :: s' =>
      if (as_char c <? 0)%Z then inl (IllegalSymbol (symbol t))
      else if NSLOTS <? c then inl (IllegalSymbol (symbol t))
      else
        match next n !! c with
        | None => inl (TrieFault (SlotRange c))
        | Some slot =>
            let child := match slot with
                         | Some ch => ch
                         | None => zeroed_node
                         end in
            match trie_insert t s' child with
            | inl e => inl e
            | inr child' => inr (TroffNode (<[c := Some child']> (next n)) (node_ttype n))
            end
        end
  end.

(** The outer loop of [trofftrie], over a descriptor table. *)
Fixpoint trie_build (table : list trofftype) (root : troffnode)
  : trie_error + troffnode :=
  match table with
  | [] => inr root
  | t :: table' =>
      if length (symbol t) =? 0 then trie_build table' root
      else
        match trie_insert t (symbol t) root with
        | inl e => inl e
        | inr root' => trie_build table' root'
        end
  end.

Definition trofftrie_of (table : list trofftype) : trie_error + troffnode :=
  trie_build table zeroed_node.

Definition trofftrie : trie_error + troffnode := trofftrie_of trofftypes.

(** ** Classification of a line *)

(** The loop of [get_type]; [s] is the buffer from [*ws] on. The result is
    the returned descriptor and the final value of [*ws]. *)
Fixpoint get_type_loop (trie : troffnode) (s : list uchar) (ws : nat) (len : Z)
  : access (option trofftype * nat) :=
  if (len =? 0)%Z then Val (node_ttype trie, ws)
  else
    match s with
    | [] => Undef (ReadPast ws)
    | c :: s' =>
        if isspace c then Val (node_ttype trie, ws)
        else if c =? NUL then Val (node_ttype trie, ws)
        else if NSLOTS <? c then Val (None, ws)
        else
          match next trie !! c with
          | None => Undef (SlotRange c)
          | Some None => Val (None, ws)
          | Some (Some child) => get_type_loop child s' (S ws) (len - 1)
          end
    end.

(** [get_type(trie, &ws, len)] with [*ws = buf + ws] on entry, for the
    trie that [manloop] has built. *)
Definition get_type (trie : troffnode) (buf : list uchar) (ws : nat) (len : Z)
  : access (option trofftype * nat) :=
  match buf !! ws with
  | None => Undef (ReadPast ws)
  | Some c =>
      if negb (c =? DOT) then Val (None, ws)
      else get_type_loop trie (drop (S ws) buf) (S ws) (len - 1)
  end.

(** ** The document *)

Record pagenode := { text : list uchar }.

Record pagedom := {
  root : option pagenode;
  trie : option troffnode;
  title : option (list uchar);
  section : option (list uchar);
  version : option (list uchar);
}.

(** [pagedom dom = {}] *)
Definition empty_dom : pagedom :=
  {| root := None; trie := None; title := None; section := None; version := None |}.

Definition set_root (dom : pagedom) (r : pagenode) : pagedom :=
  {| root := Some r; trie := trie dom; title := title dom;
     section := section dom; version := version dom |}.
Definition set_title (dom : pagedom) (t : list uchar) : pagedom :=
  {| root := root dom; trie := trie dom; title := Some t;
     section := section dom; version := version dom |}.
Definition set_section (dom : pagedom) (t : list uchar) : pagedom :=
  {| root := root dom; trie := trie dom; title := title dom;
     section := Some t; version := version dom |}.
Definition set_trie (dom : pagedom) (t : troffnode) : pagedom :=
  {| root := root dom; trie := Some t; title := title dom;
     section := section dom; version := version dom |}.

Definition dom_get_title (dom : pagedom) : option (list uchar) := title dom.

(** What a parsing function returns: 0, or -1 after one of the messages. *)
Inductive parse_error :=
  | DuplicateTitle      (* found a second title *)
  | EmptyTitle          (* bogus empty title *)
  | TitleExtraction     (* couldn't extract title *)
  | SectionExtraction   (* couldn't extract section *)
  | NoTitle.            (* no title found *)

Inductive status :=
  | Ret0
  | RetErr (e : parse_error).

#[global] Instance parse_error_eq_dec : EqDecision parse_error.
Proof. solve_decision. Defined.
#[global] Instance status_eq_dec : EqDecision status.
Proof. solve_decision. Defined.

(** ** Title lexing *)

(** [*p] for a pointer [p] into a NUL-terminated string, given as the bytes
    from [p] to the terminator. *)
Definition peek (p : list uchar) : uchar := hd NUL p.

(** [while(isspace( *tok)) ++tok;] *)
Fixpoint skip_space (tok : list uchar) : list uchar :=
  match tok with
  | [] => []
  | c :: tok' => if isspace c then skip_space tok' else tok
  end.

(** [while( *endtok){ ... ++endtok; }]: the bytes stepped over, the string at
    the final [endtok], and the final [quoted]. *)
Fixpoint scan_token (quoted : bool) (endtok : list uchar)
  : list uchar * list uchar * bool :=
  match endtok with
  | [] => ([], [], quoted)
  | c :: endtok' =>
      if c =? NUL then ([], endtok, quoted)
      else if negb quoted then
        if isspace c then ([], endtok, quoted)
        else if c =? DQUOTE then ([], endtok, true)
        else let '(run, e, q) := scan_token quoted endtok' in (c :: run, e, q)
      else
        if c =? DQUOTE then ([], endtok, false)
        else let '(run, e, q) := scan_token quoted endtok' in (c :: run, e, q)
  end.

(** Skip the blanks before a token and step over an opening quote: the
    token's first byte and whether it is quoted. *)
Definition open_token (tok : list uchar) : list uchar * bool :=
  let tok := skip_space tok in
  if peek tok =? DQUOTE then (tl tok, true) else (tok, false).

(** The second token, from [endtok = tok + 1] (line 376) on. *)
Definition lex_section (dom : pagedom) (tok : list uchar) (quoted : bool)
  : pagedom * status :=
  let '(run, endtok, _) := scan_token quoted (tl tok) in
  if peek endtok =? NUL then (dom, RetErr SectionExtraction)
  else (set_section dom (peek tok :: run), Ret0).

(** [lex_title] on the text of the root node. *)
Definition lex_title_text (txt : list uchar) (dom : pagedom) : pagedom * status :=
  let '(tok, quoted) := open_token txt in
  if peek tok =? NUL then (dom, RetErr TitleExtraction)
  else
    let '(run, endtok, quoted) := scan_token quoted (tl tok) in
    if peek endtok =? NUL then (dom, RetErr TitleExtraction)
    else
      let dom := set_title dom (peek tok :: run) in
      let tok := tl endtok in
      if peek tok =? NUL then (dom, RetErr SectionExtraction)
      else if negb quoted then
        let '(tok, quoted) := open_token tok in
        if peek tok =? NUL then (dom, RetErr SectionExtraction)
        else lex_section dom tok quoted
      else lex_section dom tok quoted.

Definition lex_title (dom : pagedom) : access (pagedom * status) :=
  match root dom with
  | None => Undef NullDeref
  | Some r => Val (lex_title_text (text r) dom)
  end.

(** ** The line scanner *)

(** [while(left && *eol != '\n' && *eol){ ++eol; --left; }], with [s] the
    buffer from [eol] on. *)
Fixpoint find_eol (s : list uchar) (eol : nat) (left : Z) : access (nat * Z) :=
  if (left =? 0)%Z then Val (eol, left)
  else
    match s with
    | [] => Undef (ReadPast eol)
    | c :: s' =>
        if c =? NL then Val (eol, left)
        else if c =? NUL then Val (eol, left)
        else find_eol s' (S eol) (left - 1)
    end.

(** [feol]: [eol], one less when the line ends in a newline. *)
Definition functional_eol (map : list uchar) (eol : nat) (left : Z) : access Z :=
  if (left =? 0)%Z then Val (Z.of_nat eol)
  else
    match map !! eol with
    | None => Undef (ReadPast eol)
    | Some c => Val (if c =? NL then (Z.of_nat eol - 1)%Z else Z.of_nat eol)
    end.

(** A [ptrdiff_t] passed as a [size_t]. *)
Definition to_size_t (d : Z) : Z := (d mod 2 ^ 64)%Z.

(** [strndup(p, n)]: the bytes from [p] up to a NUL, [n] of them at most. *)
Fixpoint strndup_loop (s : list uchar) (pos : nat) (n : Z) : access (list uchar) :=
  if (n =? 0)%Z then Val []
  else
    match s with
    | [] => Undef (ReadPast pos)
    | c :: s' =>
        if c =? NUL then Val []
        else r ← strndup_loop s' (S pos) (n - 1); Val (c :: r)
    end.

Definition strndup (map : list uchar) (p : nat) (n : Z) : access (list uchar) :=
  strndup_loop (drop p map) p n.

(** What one turn of the loop of [troff_parse] decides. *)
Inductive turn :=
  | Return (dom : pagedom) (st : status)
  | Next (dom : pagedom) (off line : nat).

(** The part of the loop body that finds the line: the descriptor, [ws],
    [eol] and [feol]. *)
Definition scan_line (tr : troffnode) (map : list uchar) (mlen off line : nat)
  : access (option trofftype * nat * nat * Z) :=
  let left := (Z.of_nat mlen - Z.of_nat off)%Z in
  '(node, ws) ← get_type tr map line left;
  let left := (left - (Z.of_nat ws - Z.of_nat line))%Z in
  '(eol, left') ← find_eol (drop ws map) ws left;
  feol ← functional_eol map eol left';
  Val (node, ws, eol, feol).

(** The part of the loop body that handles a title line. *)
Definition title_line (map : list uchar) (ws : nat) (feol : Z) (dom : pagedom)
  : access (pagedom * status) :=
  match dom_get_title dom with
  | Some _ => Val (dom, RetErr DuplicateTitle)
  | None =>
      if ((Z.of_nat ws =? feol) || (Z.of_nat ws + 1 =? feol))%Z
      then Val (dom, RetErr EmptyTitle)
      else
        txt ← strndup map (ws + 1) (to_size_t (feol - (Z.of_nat ws + 1)));
        lex_title (set_root dom {| text := txt |})
  end.

Definition troff_turn (tr : troffnode) (map : list uchar) (mlen off line : nat)
    (dom : pagedom) : access turn :=
  '(node, ws, eol, feol) ← scan_line tr map mlen off line;
  let advance dom := Val (Next dom (off + (eol - line) + 1) (eol + 1)) in
  match node with
  | Some t =>
      if is_TH t then
        '(dom', st) ← title_line map ws feol dom;
        match st with
        | RetErr e => Val (Return dom' (RetErr e))
        | Ret0 => advance dom'
        end
      else advance dom
  | None => advance dom
  end.

Fixpoint troff_loop (fuel : nat) (tr : troffnode) (map : list uchar)
    (mlen off line : nat) (dom : pagedom) : access (pagedom * status) :=
  if negb (off <? mlen) then
    match dom_get_title dom with
    | None => Val (dom, RetErr NoTitle)
    | Some _ => Val (dom, Ret0)
    end
  else
    match fuel with
    | 0 => Undef NoFuel
    | S fuel' =>
        t ← troff_turn tr map mlen off line dom;
        match t with
        | Return dom' st => Val (dom', st)
        | Next dom' off' line' => troff_loop fuel' tr map mlen off' line' dom'
        end
    end.

(** [troff_parse(map, mlen, dom)]; every turn advances [off], so [mlen]
    turns are enough (see [troff_loop_fuel]). [manloop] sets [dom->trie]
    before the call. *)
Definition troff_parse (map : list uchar) (mlen : nat) (dom : pagedom)
  : access (pagedom * status) :=
  match trie dom with
  | None => Undef NullDeref
  | Some tr => troff_loop mlen tr map mlen 0 0 dom
  end.

(** ** The loader and the session

    The system calls are given by the environment of a run: what [open],
    [fstat] and the two [mmap] calls return, the bytes of the file, and what
    the decompressor reports. The calls that create, release or inspect a
    mapping are logged. *)

Inductive region :=
  | FileMap    (* mmap of the file, line 113 *)
  | AnonMap.   (* anonymous mmap, line 126 *)

Inductive event :=
  | Mmap (r : region)
  | Munmap (r : region)
  | Inspect.   (* buf[0], buf[1], buf[2] read, line 121 *)

#[global] Instance region_eq_dec : EqDecision region.
Proof. solve_decision. Defined.
#[global] Instance event_eq_dec : EqDecision event.
Proof. solve_decision. Defined.

Inductive inflate_outcome :=
  | InitFailed                   (* inflateInit / libdeflate_alloc_decompressor failed *)
  | DataError                    (* the payload is not a complete gzip stream *)
  | Inflated (out : list uchar). (* Z_STREAM_END / LIBDEFLATE_SUCCESS *)

(** What the terminal side of a session does once the page is parsed. *)
Inductive ui_outcome :=
  | PlaneFailed     (* ncplane_create fails in render_troff *)
  | BarFailed       (* create_bar fails *)
  | RenderFailed    (* notcurses_render fails in the loop *)
  | Quit            (* the user presses q *)
  | InputEnded.     (* notcurses_get returns (uint32_t)-1 *)

Record env := {
  open_ok : bool;
  fstat_ok : bool;
  contents : list uchar;
  mmap_file_ok : bool;
  mmap_anon_ok : bool;
  inflate : inflate_outcome;
  ui : ui_outcome;
}.

Definition st_size (e : env) : Z := Z.of_nat (length (contents e)).

(** Which [map_gzipped_data] is compiled. *)
Inductive backend := USE_DEFLATE | USE_ZLIB.

(** A computation that logs events. *)
Definition M (A : Type) : Type := list event -> A * list event.
Definition ret {A} (a : A) : M A := fun log => (a, log).
#[global] Instance M_bind : MBind M := fun A B k m =>
  fun log => let '(a, log') := m log in k a log'.
Definition emit (ev : event) : M unit := fun log => (tt, log ++ [ev]).
Definition run {A} (m : M A) : A * list event := m [].

Definition munmap (r : region) : M unit := emit (Munmap r).

(** [map_gzipped_data], libdeflate implementation: the new length on
    success, [None] for NULL. *)
Definition map_gzipped_data_deflate (e : env) (buf ubuf : region) (ulen : Z)
  : M (option (region * Z)) :=
  match inflate e with
  | InitFailed => munmap buf;; ret None
  | r =>
      munmap buf;;
      match r with
      | Inflated _ => ret (Some (ubuf, ulen))
      | _ => ret None
      end
  end.

(** [map_gzipped_data], libz implementation. *)
Definition map_gzipped_data_zlib (e : env) (buf ubuf : region) (ulen : Z)
  : M (option (region * Z)) :=
  match inflate e with
  | InitFailed => munmap buf;; ret None
  | r =>
      munmap buf;;
      match r with
      | Inflated _ => munmap buf;; ret None
      | _ => ret None
      end
  end.

Definition map_gzipped_data (b : backend) :=
  match b with
  | USE_DEFLATE => map_gzipped_data_deflate
  | USE_ZLIB => map_gzipped_data_zlib
  end.

Inductive load_error :=
  | OpenFailed         (* line 147 *)
  | StatFailed         (* line 106 *)
  | TooSmall           (* line 110 *)
  | MapFailed          (* line 119 *)
  | AnonMapFailed      (* line 130 *)
  | DecompressFailed.  (* line 134 *)

Inductive loaded :=
  | Loaded (r : region) (data : list uchar) (len : Z)
  | LoadFail (err : load_error).

#[global] Instance load_error_eq_dec : EqDecision load_error.
Proof. solve_decision. Defined.

(** The last four bytes of the file as a little-endian [uint32_t]. *)
Definition trailer_ulen (buf : list uchar) : Z :=
  let at_ (i : nat) : Z := Z.of_nat (nth (length buf - 4 + i) buf 0) in
  (at_ 0%nat + 256 * at_ 1%nat + 65536 * at_ 2%nat + 16777216 * at_ 3%nat)%Z.

Definition pgsize : Z := 4096.

(** [buf[0] == 0x1f && buf[1] == 0x8b && buf[2] == 0x08] *)
Definition gzip_magic (buf : list uchar) : bool :=
  (nth 0 buf 0 =? 31) && (nth 1 buf 0 =? 139) && (nth 2 buf 0 =? 8).

(** The anonymous mapping after a successful inflate: the output, then the
    zeros of the fresh pages. *)
Definition inflated_region (out : list uchar) (ulen : Z) : list uchar :=
  out ++ replicate (Z.to_nat ((ulen + pgsize - 1) / pgsize * pgsize) - length out) NUL.

Definition map_troff_data (b : backend) (e : env) : M loaded :=
  if negb (fstat_ok e) then ret (LoadFail StatFailed)
  else if (st_size e <? 18)%Z then ret (LoadFail TooSmall)
  else
    let len := st_size e in
    if negb (mmap_file_ok e) then ret (LoadFail MapFailed)
    else
      emit (Mmap FileMap);;
      emit Inspect;;
      let buf := contents e in
      if gzip_magic buf then
        let ulen := trailer_ulen buf in
        if negb (mmap_anon_ok e) then munmap FileMap;; ret (LoadFail AnonMapFailed)
        else
          emit (Mmap AnonMap);;
          r ← map_gzipped_data b e FileMap AnonMap ulen;
          match r with
          | None => munmap AnonMap;; ret (LoadFail DecompressFailed)
          | Some (ubuf, len) =>
              let out := match inflate e with Inflated o => o | _ => [] end in
              ret (Loaded ubuf (inflated_region out ulen) len)
          end
      else ret (Loaded FileMap buf len).

Definition get_troff_data (b : backend) (e : env) : M loaded :=
  if negb (open_ok e) then ret (LoadFail OpenFailed)
  else map_troff_data b e.

(** [manloop]: the value returned, or the undefined access of the parser.
    Whatever fails once the file is loaded (the trie, the parse, a plane,
    the bar, a render) goes to [done], which releases [buf]. *)
Definition manloop (b : backend) (e : env) : M (access Z) :=
  l ← get_troff_data b e;
  match l with
  | LoadFail _ => ret (Val (-1)%Z)
  | Loaded buf data len =>
      let done (r : access Z) := munmap buf;; ret r in
      match trofftrie with
      | inl _ => done (Val (-1)%Z)
      | inr tr =>
          match troff_parse data (Z.to_nat len) (set_trie empty_dom tr) with
          | Undef f => ret (Undef f)
          | Val (_, RetErr _) => done (Val (-1)%Z)
          | Val (_, Ret0) =>
              match ui e with
              | Quit => done (Val 0%Z)
              | _ => done (Val (-1)%Z)
              end
          end
      end
  end.

(** The loop of [main] over the files: [success] is cleared before a
    session and set after one that returns 0; a session that fails ends the
    loop. *)
Fixpoint main_loop (b : backend) (files : list env) (success : bool)
  : M (access bool) :=
  match files with
  | [] => ret (Val success)
  | e :: files' =>
      r ← manloop b e;
      match r with
      | Undef f => ret (Undef f)
      | Val v => if (v =? 0)%Z then main_loop b files' true else ret (Val false)
      end
  end.

Definition EXIT_SUCCESS : Z := 0.
Definition EXIT_FAILURE : Z := 1.

(** [main], given what [parse_args] returns, whether
    [notcurses_core_init] returns a context, the files [argv[nonopt]] and
    after (one at least, as [parse_args] has seen [argv[optind]]), and what
    [notcurses_stop] returns. [success] has no value before the loop. *)
Definition main (b : backend) (nonopt : Z) (init_ok : bool)
    (first : env) (others : list env) (stop : Z) : M (access Z) :=
  if (nonopt <=? 0)%Z then ret (Val EXIT_FAILURE)
  else if negb init_ok then ret (Val EXIT_FAILURE)
  else
    r ← main_loop b (first :: others) false;
    match r with
    | Undef f => ret (Undef f)
    | Val success =>
        ret (Val (if negb (stop =? 0)%Z || negb success
                  then EXIT_FAILURE else EXIT_SUCCESS))
    end.

(** A computation that only appends to the log, and whose value does not
    depend on the log it is given. *)
Definition appends {A} (m : M A) : Prop :=
  ∀ log, m log = ((m []).1, log ++ (m []).2).

(** ** Accounting of mappings *)

Definition created (r : region) (log : list event) : nat :=
  length (filter (λ ev, ev = Mmap r) log).
Definition released (r : region) (log : list event) : nat :=
  length (filter (λ ev, ev = Munmap r) log).

(** Every mapping that was created was released once, and nothing else was
    released. *)
Definition released_once (log : list event) : Prop :=
  ∀ r, released r log = created r log.

(** The call of [troff_parse] in a session: on the loaded bytes, with a
    document that holds the trie and nothing else. *)
Definition parse_page (map : list uchar) : access (pagedom * status) :=
  match trofftrie with
  | inl _ => Undef NullDeref
  | inr tr => troff_parse map (length map) (set_trie empty_dom tr)
  end.

(** Title, section, root text and status of a parse. *)
Definition summary (r : access (pagedom * status))
  : access (option (list uchar) * option (list uchar) * option (list uchar) * status) :=
  '(dom, st) ← r; Val (title dom, section dom, text <$> root dom, st).

(** ** Paths in the trie *)

(** The descriptor found by following the bytes [s] from [n]. *)
Fixpoint tag_at (n : troffnode) (s : list uchar) : option trofftype :=
  match s with
  | [] => node_ttype n
  | c :: s' =>
      match next n !! c with
      | Some (Some ch) => tag_at ch s'
      | _ => None
      end
  end.

(** The node reached by following the bytes [s] from [n]. *)
Fixpoint descend (n : troffnode) (s : list uchar) : option troffnode :=
  match s with
  | [] => Some n
  | c :: s' =>
      match next n !! c with
      | Some (Some ch) => descend ch s'
      | _ => None
      end
  end.

(** Every node that can be reached has its 128 slots. *)
Definition trie_wf (n : troffnode) : Prop :=
  ∀ s m, descend n s = Some m → length (next m) = NSLOTS.

(** The trie of the static table. *)
Definition the_trie : troffnode :=
  match trofftrie with inr t => t | inl _ => zeroed_node end.

(** A byte that ends a macro symbol in [get_type]. *)
Definition stops (c : uchar) : bool := isspace c || (c =? NUL).

(** A byte that ends a line in [troff_parse]. *)
Definition terminator (c : uchar) : bool := (c =? NL) || (c =? NUL).

(** A byte that [get_type] looks up in the trie with an index inside the
    array, or rejects: every byte but blanks, NUL and 0x80. *)
Definition symbol_byte (c : uchar) : bool := negb (stops c) && negb (c =? NSLOTS).

(** The symbols that [trofftrie] inserts: those of the table that are not
    empty. *)
Definition nonempty_symbols (table : list trofftype) : list (list uchar) :=
  filter (λ s, s ≠ []) (symbol <$> table).

(** A document with a title, a section and a root node. *)
Definition complete (dom : pagedom) : Prop :=
  is_Some (title dom) ∧ is_Some (section dom) ∧ is_Some (root dom).

(** A byte that can stand in a title or a section: not NUL, not a double
    quote and, in a token without quotes, not a blank. *)
Definition token_byte (quoted : bool) (c : uchar) : bool :=
  negb (c =? NUL) && negb (c =? DQUOTE) && (quoted || negb (isspace c)).

(** A token as it is written in the text of a title line: between double
    quotes, or bare. *)
Definition enc_token (quoted : bool) (tok : list uchar) : list uchar :=
  if quoted then DQUOTE :: tok ++ [DQUOTE] else tok.

(** ** The lines of a buffer *)


(** The bytes of [map] from offset [i] up to offset [j]. *)
Definition span (map : list nat) (i j : nat) : list nat := take (j - i) (drop i map).


(** The lines that the loop of [troff_parse] visits from [off] on, when it
    is not stopped by a title line: descriptor, [ws] and [feol] of each. *)
Fixpoint scan_lines (fuel : nat) (tr : troffnode) (map : list nat)
    (mlen off line : nat) : access (list (option trofftype * nat * Z)) :=
  if negb (off <? mlen) then Val []
  else
    match fuel with
    | 0 => Undef NoFuel
    | S fuel' =>
        '(node, ws, eol, feol) ← scan_line tr map mlen off line;
        rest ← scan_lines fuel' tr map mlen (off + (eol - line) + 1) (eol + 1);
        Val ((node, ws, feol) :: rest)
    end.

Definition lines_of (tr : troffnode) (map : list nat) (mlen : nat) :=
  scan_lines mlen tr map mlen 0 0.

Definition is_title_line (l : option trofftype * nat * Z) : bool :=
  match l.1.1 with
  | Some t => is_TH t
  | None => false
  end.

Definition title_lines (ls : list (option trofftype * nat * Z)) :=
  filter (λ l, is_title_line l = true) ls.

(** The loop of [troff_parse] over the lines found by [scan_lines]. *)
Fixpoint run_lines (map : list nat) (ls : list (option trofftype * nat * Z))
    (dom : pagedom) : access (pagedom * status) :=
  match ls with
  | [] =>
      match dom_get_title dom with
      | None => Val (dom, RetErr NoTitle)
      | Some _ => Val (dom, Ret0)
      end
  | l :: ls' =>
      if is_title_line l then
        '(dom', st) ← title_line map l.1.2 l.2 dom;
        match st with
        | RetErr e => Val (dom', RetErr e)
        | Ret0 => run_lines map ls' dom'
        end
      else run_lines map ls' dom
  end.

(** A gzip file of 18 bytes whose payload inflates to a page. *)
Definition gzip_env : env :=
  {| open_ok := true; fstat_ok := true;
     contents := [31; 139; 8] ++ replicate 11 7 ++ [11; 0; 0; 0];
     mmap_file_ok := true; mmap_anon_ok := true;
     inflate := Inflated (bytes ".TH a b c" ++ [NL; NL]);
     ui := Quit |}.

(** A gzip file of 18 bytes whose payload is damaged. *)
Definition damaged_env : env :=
  {| open_ok := true; fstat_ok := true;
     contents := [31; 139; 8] ++ replicate 11 7 ++ [11; 0; 0; 0];
     mmap_file_ok := true; mmap_anon_ok := true;
     inflate := DataError;
     ui := Quit |}.

(** * Properties *)

(** ** The trie *)

Lemma zeroed_lookup c : next zeroed_node !! c = None ∨ next zeroed_node !! c = Some None.
Proof.
  unfold zeroed_node. cbn [next].
  destruct (replicate NSLOTS (@None troffnode) !! c) as [o|] eqn:E; [|by left].
  apply lookup_replicate in E as [-> _]. by right.
Qed.

Lemma tag_at_zeroed s : tag_at zeroed_node s = None.
Proof.
  destruct s as [|c s]; [reflexivity|].
  cbn [tag_at]. by destruct (zeroed_lookup c) as [-> | ->].
Qed.

Lemma descend_zeroed s m : descend zeroed_node s = Some m → s = [] ∧ m = zeroed_node.
Proof.
  destruct s as [|c s]; cbn [descend].
  - intros [= <-]. auto.
  - by destruct (zeroed_lookup c) as [-> | ->].
Qed.

Lemma trie_wf_zeroed : trie_wf zeroed_node.
Proof.
  intros s m [-> ->]%descend_zeroed. unfold zeroed_node. cbn [next].
  apply length_replicate.
Qed.

Lemma trie_wf_child n c ch :
  trie_wf n → next n !! c = Some (Some ch) → trie_wf ch.
Proof.
  intros Hwf Hc s m Hd. apply (Hwf (c :: s)). cbn [descend]. by rewrite Hc.
Qed.

Lemma trie_wf_length n : trie_wf n → length (next n) = NSLOTS.
Proof. intros Hwf. by apply (Hwf []). Qed.

(** What a successful insertion returns. *)
Lemma trie_insert_inv t c s n n' :
  trie_insert t (c :: s) n = inr n' →
  ∃ slot child',
    next n !! c = Some slot ∧
    trie_insert t s (default zeroed_node slot) = inr child' ∧
    n' = TroffNode (<[c := Some child']> (next n)) (node_ttype n).
Proof.
  cbn [trie_insert].
  destruct (as_char c <? 0)%Z; [done|].
  destruct (NSLOTS <? c); [done|].
  destruct (next n !! c) as [slot|] eqn:Hc; [|done].
  intros H. exists slot.
  replace (match slot with Some ch => ch | None => zeroed_node end)
    with (default zeroed_node slot) in H by by destruct slot.
  destruct (trie_insert t s (default zeroed_node slot)) as [e|child'] eqn:Hi; [done|].
  exists child'. by injection H as <-.
Qed.

Lemma tag_at_default_slot n c slot s :
  next n !! c = Some slot →
  tag_at n (c :: s) = tag_at (default zeroed_node slot) s.
Proof.
  intros Hc. cbn [tag_at]. rewrite Hc. destruct slot; simpl; [done|].
  by rewrite tag_at_zeroed.
Qed.

Lemma trie_wf_default_slot n c slot :
  trie_wf n → next n !! c = Some slot → trie_wf (default zeroed_node slot).
Proof.
  intros Hwf Hc. destruct slot as [ch|]; simpl.
  - by eapply trie_wf_child.
  - apply trie_wf_zeroed.
Qed.

(** The inserted descriptor is found at its symbol. *)
Lemma trie_insert_tag t s n n' :
  trie_insert t s n = inr n' → tag_at n' s = Some t.
Proof.
  revert n n'. induction s as [|c s IH]; intros n n'.
  - cbn [trie_insert]. destruct (node_ttype n); [done|]. by intros [= <-].
  - intros (slot & child' & Hc & Hi & ->)%trie_insert_inv.
    cbn [tag_at next]. rewrite list_lookup_insert_eq by by eapply lookup_lt_Some.
    by eapply IH.
Qed.

(** An insertion succeeds only at an untagged path. *)
Lemma trie_insert_fresh t s n n' :
  trie_insert t s n = inr n' → tag_at n s = None.
Proof.
  revert n n'. induction s as [|c s IH]; intros n n'.
  - cbn [trie_insert tag_at]. by destruct (node_ttype n).
  - intros (slot & child' & Hc & Hi & ->)%trie_insert_inv.
    rewrite (tag_at_default_slot _ _ _ _ Hc). by eapply IH.
Qed.

(** The other paths keep their descriptors. *)
Lemma trie_insert_other t s n n' p :
  trie_insert t s n = inr n' → p ≠ s → tag_at n' p = tag_at n p.
Proof.
  revert n n' p. induction s as [|c s IH]; intros n n' p.
  - cbn [trie_insert]. destruct (node_ttype n); [done|]. intros [= <-] Hp.
    destruct p; [done|]. reflexivity.
  - intros (slot & child' & Hc & Hi & ->)%trie_insert_inv Hp.
    destruct p as [|d p]; [reflexivity|].
    destruct (decide (d = c)) as [->|Hd].
    + rewrite (tag_at_default_slot _ _ _ _ Hc).
      cbn [tag_at next]. rewrite list_lookup_insert_eq by by eapply lookup_lt_Some.
      eapply IH; [done|]. congruence.
    + cbn [tag_at next]. by rewrite list_lookup_insert_ne.
Qed.

Lemma trie_insert_wf t s n n' :
  trie_insert t s n = inr n' → trie_wf n → trie_wf n'.
Proof.
  revert n n'. induction s as [|c s IH]; intros n n'.
  - cbn [trie_insert]. destruct (node_ttype n); [done|]. intros [= <-] Hwf p m.
    destruct p as [|d p]; cbn [descend next].
    + intros [= <-]. cbn [next]. by apply trie_wf_length.
    + intros Hd. apply (Hwf (d :: p)). done.
  - intros (slot & child' & Hc & Hi & ->)%trie_insert_inv Hwf p m.
    destruct p as [|d p]; cbn [descend next].
    + intros [= <-]. cbn [next]. rewrite length_insert. by apply trie_wf_length.
    + destruct (decide (d = c)) as [->|Hd].
      * rewrite list_lookup_insert_eq by by eapply lookup_lt_Some.
        apply (IH _ _ Hi). by eapply trie_wf_default_slot.
      * rewrite list_lookup_insert_ne by done. intros Hm. by apply (Hwf (d :: p)).
Qed.

(** *** Building from a table *)

Lemma trie_build_cons t table root :
  trie_build (t :: table) root =
    if length (symbol t) =? 0 then trie_build table root
    else match trie_insert t (symbol t) root with
         | inl e => inl e
         | inr root' => trie_build table root'
         end.
Proof. reflexivity. Qed.

Lemma trie_build_app l1 l2 root :
  trie_build (l1 ++ l2) root =
    match trie_build l1 root with
    | inl e => inl e
    | inr r => trie_build l2 r
    end.
Proof.
  revert root. induction l1 as [|t l1 IH]; intros root; [reflexivity|].
  rewrite <- app_comm_cons, !trie_build_cons.
  destruct (length (symbol t) =? 0); [apply IH|].
  destruct (trie_insert t (symbol t) root); [reflexivity|apply IH].
Qed.

Lemma trie_build_wf table root root' :
  trie_build table root = inr root' → trie_wf root → trie_wf root'.
Proof.
  revert root. induction table as [|t table IH]; intros root.
  - by intros [= <-].
  - rewrite trie_build_cons. destruct (length (symbol t) =? 0); [apply IH|].
    destruct (trie_insert t (symbol t) root) as [|r] eqn:Hi; [done|].
    intros Hb Hwf. apply (IH _ Hb). by eapply trie_insert_wf.
Qed.

(** A descriptor that is in the trie stays where it is. *)
Lemma trie_build_keeps table root root' s d :
  trie_build table root = inr root' →
  tag_at root s = Some d → tag_at root' s = Some d.
Proof.
  revert root. induction table as [|t table IH]; intros root.
  - by intros [= <-].
  - rewrite trie_build_cons. destruct (length (symbol t) =? 0); [apply IH|].
    destruct (trie_insert t (symbol t) root) as [|r] eqn:Hi; [done|].
    intros Hb Hs. apply (IH _ Hb).
    rewrite (trie_insert_other _ _ _ _ s Hi); [done|].
    intros ->. apply trie_insert_fresh in Hi. congruence.
Qed.

(** Every descriptor of the table with a symbol is found at its symbol. *)
Lemma trie_build_registered table root root' d :
  trie_build table root = inr root' →
  d ∈ table → symbol d ≠ [] → tag_at root' (symbol d) = Some d.
Proof.
  revert root. induction table as [|t table IH]; intros root Hb Hd Hne.
  - by apply elem_of_nil in Hd.
  - rewrite trie_build_cons in Hb.
    apply elem_of_cons in Hd as [->|Hd].
    + destruct (symbol t) as [|c sy] eqn:Hsy; [done|]. cbn [length Nat.eqb] in Hb.
      destruct (trie_insert t (c :: sy) root) as [|r] eqn:Hi; [done|].
      eapply trie_build_keeps; [done|]. by eapply trie_insert_tag.
    + destruct (length (symbol t) =? 0); [by eapply IH|].
      destruct (trie_insert t (symbol t) root) as [|r] eqn:Hi; [done|].
      by eapply IH.
Qed.

(** A path that is no symbol of the table is left as it was. *)
Lemma trie_build_unregistered table root root' s :
  trie_build table root = inr root' →
  (∀ d, d ∈ table → symbol d ≠ [] → symbol d ≠ s) →
  tag_at root' s = tag_at root s.
Proof.
  revert root. induction table as [|t table IH]; intros root Hb Hs.
  - by injection Hb as <-.
  - rewrite trie_build_cons in Hb.
    assert (∀ d, d ∈ table → symbol d ≠ [] → symbol d ≠ s) as Hs'.
    { intros d Hd. apply Hs. apply elem_of_cons. by right. }
    destruct (length (symbol t) =? 0) eqn:Hl; [by apply IH|].
    destruct (trie_insert t (symbol t) root) as [|r] eqn:Hi; [done|].
    rewrite (IH _ Hb Hs'). eapply trie_insert_other; [done|].
    intros ->. eapply Hs; [apply elem_of_cons; by left| |done].
    intros E. rewrite E in Hl. done.
Qed.

(** Two descriptors with one symbol: the second insertion finds the first
    one's tag, so the construction fails. *)
Lemma trie_build_duplicate l1 a l2 b l3 root :
  symbol a = symbol b → symbol a ≠ [] →
  ∃ e, trie_build (l1 ++ a :: l2 ++ b :: l3) root = inl e.
Proof.
  intros Hab Hne.
  destruct (trie_build (l1 ++ a :: l2 ++ b :: l3) root) as [e|r] eqn:Hb; [by eexists|].
  exfalso. rewrite trie_build_app in Hb.
  destruct (trie_build l1 root) as [|r1]; [done|].
  rewrite trie_build_cons in Hb.
  destruct (symbol a) as [|c sa] eqn:Hsa; [done|]. cbn [length Nat.eqb] in Hb.
  destruct (trie_insert a (c :: sa) r1) as [|r2] eqn:Hi; [done|].
  rewrite trie_build_app in Hb.
  destruct (trie_build l2 r2) as [|r3] eqn:Hb2; [done|].
  rewrite trie_build_cons, <- Hab in Hb. cbn [length Nat.eqb] in Hb.
  destruct (trie_insert b (c :: sa) r3) as [|r4] eqn:Hi2; [done|].
  apply trie_insert_fresh in Hi2. apply trie_insert_tag in Hi.
  apply (trie_build_keeps _ _ _ _ _ Hb2) in Hi. congruence.
Qed.

(** *** Classification *)

Lemma symbol_byte_inv c :
  symbol_byte c = true → isspace c = false ∧ (c =? NUL) = false ∧ c ≠ NSLOTS.
Proof.
  unfold symbol_byte, stops. intros H.
  apply andb_true_iff in H as [H1 H2].
  apply negb_true_iff, orb_false_iff in H1 as [? ?].
  apply negb_true_iff, Nat.eqb_neq in H2. done.
Qed.

(** Over a well-formed trie the scan of a symbol that is followed by a blank
    or a NUL returns what the trie holds at the symbol, and stops inside
    the symbol or at the byte that follows it. *)
Lemma get_type_loop_symbol sym : ∀ trie w rest ws len,
  trie_wf trie →
  Forall (λ c, symbol_byte c = true) sym →
  stops w = true →
  (Z.of_nat (length sym) < len)%Z →
  ∃ ws', get_type_loop trie (sym ++ w :: rest) ws len = Val (tag_at trie sym, ws')
         ∧ ws ≤ ws' ≤ ws + length sym
         ∧ (is_Some (tag_at trie sym) → ws' = ws + length sym).
Proof.
  induction sym as [|c sym IH]; intros trie w rest ws len Hwf Hsym Hw Hlen.
  - exists ws. cbn [app get_type_loop tag_at length] in *.
    destruct (len =? 0)%Z eqn:E; [lia|].
    unfold stops in Hw. destruct (isspace w); [split; [done|lia]|].
    simpl in Hw. rewrite Hw. split; [done|lia].
  - apply Forall_cons in Hsym as [Hc Hsym].
    apply symbol_byte_inv in Hc as (Hsp & Hnul & H128).
    cbn [app get_type_loop tag_at length] in *.
    destruct (len =? 0)%Z eqn:E; [lia|]. rewrite Hsp, Hnul.
    pose proof (trie_wf_length _ Hwf) as Hl.
    destruct (NSLOTS <? c) eqn:Hgt.
    + apply Nat.ltb_lt in Hgt. rewrite (lookup_ge_None_2 (next trie) c) by lia.
      exists ws. split; [done|]. split; [lia|]. by intros [? ?].
    + apply Nat.ltb_ge in Hgt.
      destruct (lookup_lt_is_Some_2 (next trie) c) as [slot Hslot]; [lia|].
      rewrite Hslot. destruct slot as [ch|].
      * destruct (IH ch w rest (S ws) (len - 1)%Z) as (ws' & -> & Hb & Hs);
          [by eapply trie_wf_child|done|done|lia|].
        exists ws'. split; [done|]. split; [lia|]. intros H. rewrite Hs by done. lia.
      * exists ws. split; [done|]. split; [lia|]. by intros [? ?].
Qed.

Lemma drop_S_middle {A} (pre : list A) x l :
  drop (S (length pre)) (pre ++ x :: l) = l.
Proof.
  rewrite (cons_middle x pre l), app_assoc. apply drop_app_length'.
  rewrite length_app. simpl. lia.
Qed.

Lemma get_type_symbol trie pre sym w rest len :
  trie_wf trie →
  Forall (λ c, symbol_byte c = true) sym →
  stops w = true →
  (Z.of_nat (length sym) + 1 < len)%Z →
  ∃ ws', get_type trie (pre ++ DOT :: sym ++ w :: rest) (length pre) len
           = Val (tag_at trie sym, ws')
         ∧ (is_Some (tag_at trie sym) → ws' = length pre + 1 + length sym).
Proof.
  intros Hwf Hsym Hw Hlen. unfold get_type.
  rewrite list_lookup_middle by done. rewrite Nat.eqb_refl. cbn [negb].
  rewrite drop_S_middle.
  destruct (get_type_loop_symbol sym trie w rest (S (length pre)) (len - 1)%Z)
    as (ws' & -> & Hb & Hs); [done|done|done|lia|].
  exists ws'. split; [done|]. intros H. rewrite Hs by done. lia.
Qed.

(** The loop of the scan never reads at or beyond [len] bytes from its
    start. *)
Lemma get_type_loop_in_bound trie s ws len :
  (0 ≤ len)%Z → Z.to_nat len ≤ length s →
  (∀ off, get_type_loop trie s ws len ≠ Undef (ReadPast off)) ∧
  get_type_loop trie (take (Z.to_nat len) s) ws len = get_type_loop trie s ws len.
Proof.
  revert trie ws len. induction s as [|c s IH]; intros trie ws len H0 Hlen.
  - simpl in Hlen. assert (len = 0%Z) as -> by lia. done.
  - destruct (decide (len = 0%Z)) as [->|Hne]; [done|].
    replace (Z.to_nat len) with (S (Z.to_nat (len - 1))) by lia.
    cbn [take get_type_loop].
    destruct (len =? 0)%Z eqn:E; [lia|].
    destruct (isspace c); [done|]. destruct (c =? NUL); [done|].
    destruct (NSLOTS <? c); [done|].
    destruct (next trie !! c) as [[ch|]|]; [|done..].
    apply IH; [lia|]. simpl in Hlen. lia.
Qed.

(** X4. [get_type] never reads at or beyond [len] bytes from its start: on
    a buffer that holds them no read is outside, and what lies beyond them
    does not change the result. *)
Lemma get_type_in_bound trie buf ws len :
  (1 ≤ len)%Z → ws + Z.to_nat len ≤ length buf →
  (∀ off, get_type trie buf ws len ≠ Undef (ReadPast off)) ∧
  get_type trie (take (ws + Z.to_nat len) buf) ws len = get_type trie buf ws len.
Proof.
  intros H1 Hlen. unfold get_type.
  rewrite lookup_take_lt by lia.
  destruct (lookup_lt_is_Some_2 buf ws) as [c ->]; [lia|].
  destruct (negb (c =? DOT)); [done|].
  destruct (get_type_loop_in_bound trie (drop (S ws) buf) (S ws) (len - 1))
    as [Hr Ht]; [lia|rewrite length_drop; lia|].
  split; [done|]. rewrite <- Ht. f_equal.
  rewrite take_drop_commute. f_equal. f_equal. lia.
Qed.

(** X5. A byte above 0x80 in a symbol ends the scan with no match, at that
    byte, before any slot is read. *)
Lemma get_type_loop_above trie c s ws len :
  NSLOTS < c → len ≠ 0%Z →
  get_type_loop trie (c :: s) ws len = Val (None, ws).
Proof.
  intros Hc Hlen. cbn [get_type_loop].
  destruct (len =? 0)%Z eqn:E; [lia|].
  unfold NSLOTS in Hc.
  replace (isspace c) with false.
  2:{ unfold isspace. symmetry. apply orb_false_iff. split.
      - apply Nat.eqb_neq. lia.
      - apply andb_false_iff. right. apply Nat.leb_gt. lia. }
  replace (c =? NUL) with false by (symmetry; apply Nat.eqb_neq; unfold NUL; lia).
  replace (NSLOTS <? c) with true by (symmetry; apply Nat.ltb_lt; unfold NSLOTS; lia).
  done.
Qed.

(** The byte 0x80 passes the test [**ws > 0x80] and is used as an index. *)
Lemma get_type_loop_0x80 trie s ws len :
  trie_wf trie → len ≠ 0%Z →
  get_type_loop trie (NSLOTS :: s) ws len = Undef (SlotRange NSLOTS).
Proof.
  intros Hwf Hlen. cbn [get_type_loop].
  destruct (len =? 0)%Z eqn:E; [lia|].
  change (isspace NSLOTS) with false. change (NSLOTS =? NUL) with false.
  change (NSLOTS <? NSLOTS) with false. cbv iota.
  by rewrite (lookup_ge_None_2 (next trie) NSLOTS) by (rewrite trie_wf_length; done).
Qed.

(** *** The static table *)

Lemma trofftrie_builds : trofftrie = inr the_trie.
Proof. vm_compute. reflexivity. Qed.

Lemma the_trie_wf : trie_wf the_trie.
Proof.
  eapply trie_build_wf; [apply trofftrie_builds|apply trie_wf_zeroed].
Qed.

Lemma trofftypes_symbols d :
  d ∈ trofftypes → Forall (λ c, symbol_byte c = true) (symbol d).
Proof.
  revert d. apply Forall_forall.
  unfold trofftypes. repeat (apply Forall_cons; split; [by vm_compute; repeat constructor|]).
  apply Forall_nil_2.
Qed.

(** Every symbol of the table, followed by a blank, is classified as its
    descriptor. *)
Lemma classify_registered d w rest len :
  d ∈ trofftypes → symbol d ≠ [] → isspace w = true →
  (Z.of_nat (length (symbol d)) + 1 < len)%Z →
  get_type the_trie (DOT :: symbol d ++ w :: rest) 0 len
    = Val (Some d, 1 + length (symbol d)).
Proof.
  intros Hd Hne Hw Hlen.
  destruct (get_type_symbol the_trie [] (symbol d) w rest len) as (ws' & E & Hs).
  - apply the_trie_wf.
  - by apply trofftypes_symbols.
  - unfold stops. by rewrite Hw.
  - done.
  - cbn [app length] in E, Hs. rewrite E.
    rewrite (trie_build_registered _ _ _ d trofftrie_builds Hd Hne) in *.
    rewrite Hs by by eexists. done.
Qed.

(** A symbol that is not in the table, holds no byte 0x80 and is followed
    by a blank, is no match. *)
Lemma classify_unregistered sym w rest len :
  Forall (λ c, symbol_byte c = true) sym →
  (∀ d, d ∈ trofftypes → symbol d ≠ [] → symbol d ≠ sym) →
  isspace w = true →
  (Z.of_nat (length sym) + 1 < len)%Z →
  ∃ ws', get_type the_trie (DOT :: sym ++ w :: rest) 0 len = Val (None, ws').
Proof.
  intros Hsym Hnot Hw Hlen.
  destruct (get_type_symbol the_trie [] sym w rest len) as (ws' & E & Hs).
  - apply the_trie_wf.
  - done.
  - unfold stops. by rewrite Hw.
  - done.
  - exists ws'. cbn [app length] in E. rewrite E.
    rewrite (trie_build_unregistered _ _ _ sym trofftrie_builds Hnot).
    by rewrite tag_at_zeroed.
Qed.

(** A table with the same symbol twice is refused. *)
Lemma trofftrie_of_duplicate l1 a l2 b l3 :
  symbol a = symbol b → symbol a ≠ [] →
  ∃ e, trofftrie_of (l1 ++ a :: l2 ++ b :: l3) = inl e.
Proof. apply trie_build_duplicate. Qed.

(** ** Lines *)







Section Line.
(** A line [body] that starts at offset [length before] and is ended by
    the byte [t] inside the first [mlen] bytes of the buffer. *)
Context (tr : troffnode) (before body post : list nat) (t : nat) (mlen : nat).
Hypothesis body_plain : Forall (λ c, terminator c = false) body.
Hypothesis t_term : terminator t = true.
Hypothesis in_buffer : length before + length body < mlen.

Let off := length before.
Let k := length before + length body.
Let map := before ++ body ++ t :: post.




End Line.

(** *** The text of a title line *)

Lemma strndup_loop_plain s : ∀ pos n,
  (0 ≤ n)%Z → Z.to_nat n ≤ length s →
  Forall (λ c, (c =? NUL) = false) (take (Z.to_nat n) s) →
  strndup_loop s pos n = Val (take (Z.to_nat n) s).
Proof.
  induction s as [|c s IH]; intros pos n H0 Hlen Hpl.
  - simpl in Hlen. assert (n = 0%Z) as -> by lia. done.
  - destruct (decide (n = 0%Z)) as [->|Hne]; [done|].
    replace (Z.to_nat n) with (S (Z.to_nat (n - 1))) in * by lia.
    cbn [take strndup_loop] in *. apply Forall_cons in Hpl as [Hc Hpl].
    destruct (n =? 0)%Z eqn:E; [lia|]. rewrite Hc.
    rewrite IH; [done|lia| |done]. simpl in Hlen. lia.
Qed.

(** [strndup] copies a run of the buffer that stops before the first NUL. *)
Lemma strndup_loop_prefix s : ∀ pos n txt,
  strndup_loop s pos n = Val txt →
  txt = take (length txt) s ∧ ∀ j, s !! j = Some NUL → length txt ≤ j.
Proof.
  induction s as [|c s IH]; intros pos n txt.
  - cbn [strndup_loop]. destruct (n =? 0)%Z; [|done]. intros [= <-]. done.
  - cbn [strndup_loop]. destruct (n =? 0)%Z.
    { intros [= <-]. split; [done|]. simpl. lia. }
    destruct (c =? NUL) eqn:Hc.
    { intros [= <-]. split; [done|]. simpl. lia. }
    destruct (strndup_loop s (S pos) (n - 1)) as [r|] eqn:Hr; [|done].
    cbn [mbind access_bind]. intros [= <-].
    destruct (IH _ _ _ Hr) as [Hp Hj]. split.
    + cbn [length take]. by rewrite <- Hp.
    + intros [|j]; cbn [lookup list_lookup length].
      * intros [= ->]. done.
      * intros H. apply Hj in H. lia.
Qed.

Lemma lex_section_root dom tok q : root (lex_section dom tok q).1 = root dom.
Proof.
  unfold lex_section. destruct (scan_token q (tl tok)) as [[run e] q'].
  by destruct (peek e =? NUL).
Qed.

(** Title lexing leaves the root node as it is. *)
Lemma lex_title_text_root txt dom : root (lex_title_text txt dom).1 = root dom.
Proof.
  unfold lex_title_text. destruct (open_token txt) as [tok q].
  destruct (peek tok =? NUL); [done|].
  destruct (scan_token q (tl tok)) as [[run e] q'].
  destruct (peek e =? NUL); [done|].
  destruct (peek (tl e) =? NUL); [done|].
  destruct (negb q'); [|by rewrite lex_section_root].
  destruct (open_token (tl e)) as [tok2 q2].
  destruct (peek tok2 =? NUL); [done|]. by rewrite lex_section_root.
Qed.

Lemma terminator_not_NUL c : terminator c = false → (c =? NUL) = false.
Proof. unfold terminator. by intros [_ ?]%orb_false_iff. Qed.




(** ** The loop over the lines *)

Lemma troff_loop_lines fuel : ∀ tr map mlen off line dom ls,
  scan_lines fuel tr map mlen off line = Val ls →
  troff_loop fuel tr map mlen off line dom = run_lines map ls dom.
Proof.
  induction fuel as [|fuel IH]; intros tr map mlen off line dom ls;
    cbn [scan_lines troff_loop].
  - destruct (negb (off <? mlen)); [|done]. by intros [= <-].
  - destruct (negb (off <? mlen)); [by intros [= <-]|].
    unfold troff_turn.
    destruct (scan_line tr map mlen off line) as [[[[node ws] eol] feol]|f]; [|done].
    cbn [mbind access_bind].
    destruct (scan_lines fuel tr map mlen (off + (eol - line) + 1) (eol + 1))
      as [rest|] eqn:Hrest; [|done].
    cbn [mbind access_bind]. intros [= <-].
    cbn [run_lines]. unfold is_title_line. cbn [fst snd].
    destruct node as [t|]; [|by apply IH].
    destruct (is_TH t); [|by apply IH].
    destruct (title_line map ws feol dom) as [[dom' st]|]; [|done].
    cbn [mbind access_bind]. destruct st; [|done]. by apply IH.
Qed.

Lemma lex_section_title dom tok q : title (lex_section dom tok q).1 = title dom.
Proof.
  unfold lex_section. destruct (scan_token q (tl tok)) as [[run e] q'].
  by destruct (peek e =? NUL).
Qed.

(** A title line that is accepted leaves a title in the document. *)
Lemma lex_title_text_ok txt dom dom' :
  lex_title_text txt dom = (dom', Ret0) → is_Some (title dom').
Proof.
  unfold lex_title_text. destruct (open_token txt) as [tok q].
  destruct (peek tok =? NUL); [done|].
  destruct (scan_token q (tl tok)) as [[run e] q'].
  destruct (peek e =? NUL); [done|].
  destruct (peek (tl e) =? NUL); [done|].
  assert (∀ tok2 q2, lex_section (set_title dom (peek tok :: run)) tok2 q2 = (dom', Ret0) →
            is_Some (title dom')) as Hs.
  { intros tok2 q2 H. pose proof (lex_section_title (set_title dom (peek tok :: run)) tok2 q2) as Ht.
    rewrite H in Ht. cbn [fst title set_title] in Ht. rewrite Ht. by eexists. }
  destruct (negb q'); [|apply Hs].
  destruct (open_token (tl e)) as [tok2 q2].
  destruct (peek tok2 =? NUL); [done|]. apply Hs.
Qed.

Lemma title_line_ok map ws feol dom dom' :
  title_line map ws feol dom = Val (dom', Ret0) → is_Some (title dom').
Proof.
  unfold title_line. destruct (dom_get_title dom); [done|].
  destruct (_ || _)%Z; [done|].
  destruct (strndup _ _ _) as [txt|]; [|done]. cbn [mbind access_bind].
  unfold lex_title. cbn [root set_root text]. intros [= H].
  by apply lex_title_text_ok in H.
Qed.





(** *** The bound on the turns of the loop *)

Lemma get_type_loop_fuel trie s : ∀ ws len, get_type_loop trie s ws len ≠ Undef NoFuel.
Proof.
  revert trie. induction s as [|c s IH]; intros trie ws len; cbn [get_type_loop].
  - by destruct (len =? 0)%Z.
  - destruct (len =? 0)%Z; [done|]. destruct (isspace c); [done|].
    destruct (c =? NUL); [done|]. destruct (NSLOTS <? c); [done|].
    destruct (next trie !! c) as [[ch|]|]; [apply IH|done..].
Qed.

Lemma find_eol_fuel s : ∀ eol left, find_eol s eol left ≠ Undef NoFuel.
Proof.
  induction s as [|c s IH]; intros eol left; cbn [find_eol].
  - by destruct (left =? 0)%Z.
  - destruct (left =? 0)%Z; [done|]. destruct (c =? NL); [done|].
    destruct (c =? NUL); [done|]. apply IH.
Qed.

Lemma strndup_loop_fuel s : ∀ pos n, strndup_loop s pos n ≠ Undef NoFuel.
Proof.
  induction s as [|c s IH]; intros pos n; cbn [strndup_loop].
  - by destruct (n =? 0)%Z.
  - destruct (n =? 0)%Z; [done|]. destruct (c =? NUL); [done|].
    specialize (IH (S pos) (n - 1)%Z).
    by destruct (strndup_loop s (S pos) (n - 1)).
Qed.

Lemma scan_line_fuel tr map mlen off line :
  scan_line tr map mlen off line ≠ Undef NoFuel.
Proof.
  unfold scan_line, get_type.
  destruct (map !! line) as [c|]; [|done].
  assert (∀ r : access (option trofftype * nat), r ≠ Undef NoFuel →
    ('(node, ws) ← r;
     '(eol, left') ← find_eol (drop ws map) ws
        (Z.of_nat mlen - Z.of_nat off - (Z.of_nat ws - Z.of_nat line));
     feol ← functional_eol map eol left'; Val (node, ws, eol, feol)) ≠ Undef NoFuel) as H.
  { intros [[node ws]|f] Hr; [|by cbn [mbind access_bind]; congruence].
    cbn [mbind access_bind].
    pose proof (find_eol_fuel (drop ws map) ws
      (Z.of_nat mlen - Z.of_nat off - (Z.of_nat ws - Z.of_nat line))) as Hf.
    destruct (find_eol _ _ _) as [[eol left]|f]; [|by cbn [mbind access_bind]; congruence].
    cbn [mbind access_bind]. unfold functional_eol.
    destruct (left =? 0)%Z; [done|]. by destruct (map !! eol). }
  apply H. destruct (negb (c =? DOT)); [done|]. apply get_type_loop_fuel.
Qed.

Lemma troff_turn_fuel tr map mlen off line dom :
  troff_turn tr map mlen off line dom ≠ Undef NoFuel.
Proof.
  unfold troff_turn.
  pose proof (scan_line_fuel tr map mlen off line) as Hs.
  destruct (scan_line tr map mlen off line) as [[[[node ws] eol] feol]|f];
    [|by cbn [mbind access_bind]; congruence].
  cbn [mbind access_bind]. destruct node as [t|]; [|done].
  destruct (is_TH t); [|done].
  unfold title_line. destruct (dom_get_title dom); [done|].
  destruct (_ || _)%Z; [done|]. unfold strndup.
  pose proof (strndup_loop_fuel (drop (ws + 1) map) (ws + 1)
                (to_size_t (feol - (Z.of_nat ws + 1)))) as Hd.
  destruct (strndup_loop _ _ _) as [txt|f]; [|by cbn [mbind access_bind]; congruence].
  cbn [mbind access_bind]. unfold lex_title. cbn [root set_root].
  destruct (lex_title_text _ _) as [d st]. cbn [mbind access_bind]. by destruct st.
Qed.

Lemma troff_turn_advances tr map mlen off line dom dom' off' line' :
  troff_turn tr map mlen off line dom = Val (Next dom' off' line') → off < off'.
Proof.
  unfold troff_turn.
  destruct (scan_line tr map mlen off line) as [[[[node ws] eol] feol]|f]; [|done].
  cbn [mbind access_bind].
  assert (∀ d, Val (Next d (off + (eol - line) + 1) (eol + 1)) = Val (Next dom' off' line')
               → off < off') as H by (intros d [= _ <- _]; lia).
  destruct node as [t|]; [|apply H]. destruct (is_TH t); [|apply H].
  destruct (title_line map ws feol dom) as [[d st]|]; [|done].
  cbn [mbind access_bind]. destruct st; [apply H|done].
Qed.

(** [mlen - off] turns are enough for the loop to end. *)
Lemma troff_loop_fuel fuel : ∀ tr map mlen off line dom,
  mlen - off ≤ fuel → troff_loop fuel tr map mlen off line dom ≠ Undef NoFuel.
Proof.
  induction fuel as [|fuel IH]; intros tr map mlen off line dom Hf; cbn [troff_loop].
  - destruct (negb (off <? mlen)) eqn:E.
    + by destruct (dom_get_title dom).
    + apply negb_false_iff, Nat.ltb_lt in E. lia.
  - destruct (negb (off <? mlen)) eqn:E; [by destruct (dom_get_title dom)|].
    apply negb_false_iff, Nat.ltb_lt in E.
    pose proof (troff_turn_fuel tr map mlen off line dom) as Ht.
    destruct (troff_turn tr map mlen off line dom) as [[d st|d off' line']|f] eqn:Hturn;
      cbn [mbind access_bind]; [done| |congruence].
    apply IH. apply troff_turn_advances in Hturn. lia.
Qed.

(** X11. [troff_parse] ends on every buffer, for every length and document:
    each turn of its loop moves [off] forward, so the loop is never cut
    short by the bound of [mlen] turns that the embedding gives it. *)
Lemma troff_parse_ends map mlen dom :
  troff_parse map mlen dom ≠ Undef NoFuel.
Proof.
  unfold troff_parse. destruct (trie dom); [|done]. apply troff_loop_fuel. lia.
Qed.

(** *** Every line of a buffer is found *)

Lemma get_type_loop_range trie s : ∀ ws len node ws',
  (0 ≤ len)%Z →
  get_type_loop trie s ws len = Val (node, ws') →
  ws ≤ ws' ∧ (Z.of_nat ws' - Z.of_nat ws ≤ len)%Z.
Proof.
  revert trie. induction s as [|c s IH]; intros trie ws len node ws' H0;
    cbn [get_type_loop].
  - destruct (len =? 0)%Z; [|done]. intros [= _ <-]. lia.
  - destruct (len =? 0)%Z eqn:E; [intros [= _ <-]; lia|].
    apply Z.eqb_neq in E.
    destruct (isspace c); [intros [= _ <-]; lia|].
    destruct (c =? NUL); [intros [= _ <-]; lia|].
    destruct (NSLOTS <? c); [intros [= _ <-]; lia|].
    destruct (next trie !! c) as [[ch|]|]; [|intros [= _ <-]; lia|done].
    intros H. apply IH in H; lia.
Qed.

Lemma get_type_loop_faults trie s : ∀ ws len f,
  (0 ≤ len)%Z → Z.to_nat len ≤ length s →
  get_type_loop trie s ws len = Undef f → ∃ c, f = SlotRange c.
Proof.
  revert trie. induction s as [|c s IH]; intros trie ws len f H0 Hlen;
    cbn [get_type_loop].
  - destruct (len =? 0)%Z eqn:E; [done|]. apply Z.eqb_neq in E. simpl in Hlen. lia.
  - destruct (len =? 0)%Z eqn:E; [done|]. apply Z.eqb_neq in E.
    destruct (isspace c); [done|]. destruct (c =? NUL); [done|].
    destruct (NSLOTS <? c); [done|].
    destruct (next trie !! c) as [[ch|]|]; [|done|intros [= <-]; by eexists].
    apply IH; [lia|]. simpl in Hlen. lia.
Qed.

Lemma find_eol_range s : ∀ eol left,
  (0 ≤ left)%Z → Z.to_nat left ≤ length s →
  ∃ eol', find_eol s eol left = Val (eol', (left - (Z.of_nat eol' - Z.of_nat eol))%Z)
          ∧ eol ≤ eol' ∧ (Z.of_nat eol' - Z.of_nat eol ≤ left)%Z.
Proof.
  induction s as [|c s IH]; intros eol left H0 Hlen; cbn [find_eol].
  - simpl in Hlen. assert (left = 0%Z) as -> by lia.
    exists eol. split; [f_equal; f_equal; lia|lia].
  - destruct (left =? 0)%Z eqn:E.
    { exists eol. split; [f_equal; f_equal; lia|lia]. }
    apply Z.eqb_neq in E.
    destruct (c =? NL); [exists eol; split; [f_equal; f_equal; lia|lia]|].
    destruct (c =? NUL); [exists eol; split; [f_equal; f_equal; lia|lia]|].
    destruct (IH (S eol) (left - 1)%Z) as (eol' & -> & ? & ?); [lia|simpl in Hlen; lia|].
    exists eol'. split; [f_equal; f_equal; lia|lia].
Qed.

(** Inside the buffer the search for a line fails at a slot outside the
    array of a trie node only, and the next line starts after this one. *)
Lemma scan_line_inside tr map mlen off :
  off < mlen → mlen ≤ length map →
  match scan_line tr map mlen off off with
  | Val (_, ws, eol, _) => off ≤ ws ≤ eol ∧ eol ≤ mlen
  | Undef f => ∃ c, f = SlotRange c
  end.
Proof.
  intros Hoff Hlen. unfold scan_line, get_type.
  destruct (lookup_lt_is_Some_2 map off) as [c ->]; [lia|].
  set (left := (Z.of_nat mlen - Z.of_nat off)%Z).
  assert (∀ r : access (option trofftype * nat),
    (∀ node ws, r = Val (node, ws) → off ≤ ws ∧ (Z.of_nat ws - Z.of_nat off ≤ left)%Z) →
    (∀ f, r = Undef f → ∃ c, f = SlotRange c) →
    match ('(node, ws) ← r;
           '(eol, left') ← find_eol (drop ws map) ws (left - (Z.of_nat ws - Z.of_nat off));
           feol ← functional_eol map eol left'; Val (node, ws, eol, feol)) with
    | Val (_, ws, eol, _) => off ≤ ws ≤ eol ∧ eol ≤ mlen
    | Undef f => ∃ c, f = SlotRange c
    end) as H.
  { intros [[node ws]|f] Hv Hu; cbn [mbind access_bind]; [|by apply Hu].
    destruct (Hv node ws eq_refl) as [Hws Hwl].
    destruct (find_eol_range (drop ws map) ws (left - (Z.of_nat ws - Z.of_nat off)))
      as (eol & -> & He & Hel); [lia|rewrite length_drop; unfold left in *; lia|].
    cbn [mbind access_bind]. unfold functional_eol.
    destruct (_ =? 0)%Z eqn:E; cbn [mbind access_bind]; [unfold left in *; lia|].
    apply Z.eqb_neq in E.
    destruct (lookup_lt_is_Some_2 map eol) as [c' ->]; [unfold left in *; lia|].
    cbn [mbind access_bind]. unfold left in *. lia. }
  apply H.
  - intros node ws. destruct (negb (c =? DOT)); [intros [= _ <-]; unfold left; lia|].
    intros Hg. apply get_type_loop_range in Hg; unfold left in *; lia.
  - intros f. destruct (negb (c =? DOT)); [done|].
    apply get_type_loop_faults; [unfold left; lia|].
    rewrite length_drop. unfold left. lia.
Qed.





(** ** The title line *)

(** C1. The quoting examples, each ended by the end of the buffer and by a
    newline: the unquoted section at the end of the text is refused, the
    newline costs the quoted section its closing quote, and the
    unterminated quote is refused as a title. *)
Theorem title_quoting_examples :
  let unquoted := bytes ".TH unquoted-title 3" in
  let spaced := bytes ".TH " ++ [DQUOTE] ++ bytes "Spaced Title"
                  ++ [DQUOTE; 32; DQUOTE] ++ bytes "4" ++ [DQUOTE] in
  let unterminated := bytes ".TH " ++ [DQUOTE] ++ bytes "Unterminated" in
  summary (parse_page unquoted) =
    Val (Some (bytes "unquoted-title"), None,
         Some (bytes "unquoted-title 3"), RetErr SectionExtraction) ∧
  summary (parse_page (unquoted ++ [NL])) =
    Val (Some (bytes "unquoted-title"), None,
         Some (bytes "unquoted-title "), RetErr SectionExtraction) ∧
  summary (parse_page spaced) =
    Val (Some (bytes "Spaced Title"), Some (bytes "4"),
         Some (drop 4 spaced), Ret0) ∧
  summary (parse_page (spaced ++ [NL])) =
    Val (Some (bytes "Spaced Title"), None,
         Some (take 17 (drop 4 spaced)), RetErr SectionExtraction) ∧
  summary (parse_page unterminated) =
    Val (None, None, Some (drop 4 unterminated), RetErr TitleExtraction) ∧
  summary (parse_page (unterminated ++ [NL])) =
    Val (None, None, Some (take 12 (drop 4 unterminated)), RetErr TitleExtraction).
Proof. repeat split; vm_compute; reflexivity. Qed.

(** An unquoted token that runs to the end of the text is not accepted as
    the section: the scan ends at the terminating NUL. *)
Lemma scan_token_unquoted_run s :
  Forall (λ c, (c =? NUL) = false ∧ isspace c = false ∧ (c =? DQUOTE) = false) s →
  scan_token false s = (s, [], false).
Proof.
  induction s as [|c s IH]; [done|]. intros [(H1 & H2 & H3) Hs]%Forall_cons.
  cbn [scan_token negb]. by rewrite H1, H2, H3, IH.
Qed.

Lemma lex_section_end_of_text dom tok :
  Forall (λ c, (c =? NUL) = false ∧ isspace c = false ∧ (c =? DQUOTE) = false) (tl tok) →
  lex_section dom tok false = (dom, RetErr SectionExtraction).
Proof.
  intros H. unfold lex_section. by rewrite scan_token_unquoted_run.
Qed.

(** C2. The text stored for a title line that a newline ends lacks the
    last byte before the newline; at the end of the buffer it is whole. *)
Theorem title_text_last_byte :
  summary (parse_page (bytes ".TH a b c" ++ [NL])) =
    Val (Some (bytes "a"), Some (bytes "b"), Some (bytes "a b "), Ret0) ∧
  summary (parse_page (bytes ".TH a b c")) =
    Val (Some (bytes "a"), Some (bytes "b"), Some (bytes "a b c"), Ret0).
Proof. repeat split; vm_compute; reflexivity. Qed.

(** C8. A title line with nothing between the macro and the newline is
    not refused as empty: [strndup] is called with a length of 2^64 - 2
    and copies what follows the newline, up to a NUL or past the buffer. *)
Theorem bare_title_line :
  summary (parse_page (bytes ".TH" ++ [NL])) = Undef (ReadPast 4) ∧
  summary (parse_page (bytes ".TH" ++ [NL] ++ bytes "foo 1 x" ++ [NUL])) =
    Val (Some (bytes "foo"), Some (bytes "1"), Some (bytes "foo 1 x"), Ret0) ∧
  summary (parse_page (bytes ".TH")) = Val (None, None, None, RetErr EmptyTitle) ∧
  summary (parse_page (bytes ".TH" ++ [NUL])) = Val (None, None, None, RetErr EmptyTitle) ∧
  summary (parse_page (bytes ".TH ")) = Val (None, None, None, RetErr EmptyTitle) ∧
  summary (parse_page (bytes ".TH " ++ [NL])) = Val (None, None, None, RetErr EmptyTitle).
Proof. repeat split; vm_compute; reflexivity. Qed.

(** The test for an empty title on a title line whose newline follows the
    macro at once: [feol] is [ws - 1], neither [ws] nor [ws + 1]. *)
Lemma title_line_bare map ws dom :
  title dom = None →
  title_line map ws (Z.of_nat ws - 1) dom =
    (txt ← strndup map (ws + 1) (2 ^ 64 - 2); lex_title (set_root dom {| text := txt |})).
Proof.
  intros Ht. unfold title_line, dom_get_title. rewrite Ht.
  replace (Z.of_nat ws =? Z.of_nat ws - 1)%Z with false by (symmetry; apply Z.eqb_neq; lia).
  replace (Z.of_nat ws + 1 =? Z.of_nat ws - 1)%Z with false by (symmetry; apply Z.eqb_neq; lia).
  cbn [orb]. replace (Z.of_nat ws - 1 - (Z.of_nat ws + 1))%Z with (-2)%Z by lia.
  reflexivity.
Qed.

(** The text of a title line that a newline ends, when it is stored: the
    bytes from the one after the delimiter to the last but one of the line. *)
Lemma title_line_newline_text before body post ws dom :
  Forall (λ c, terminator c = false) body →
  title dom = None →
  length before ≤ ws → ws + 2 < length before + length body →
  (Z.of_nat (length before + length body) < 2 ^ 64)%Z →
  let k := length before + length body in
  let map := before ++ body ++ NL :: post in
  title_line map ws (Z.of_nat k - 1) dom =
    lex_title (set_root dom {| text := span map (ws + 1) (k - 1) |}).
Proof.
  intros Hbody Ht Hws Hlt Hsz k map. unfold title_line, dom_get_title. rewrite Ht.
  replace (Z.of_nat ws =? Z.of_nat k - 1)%Z with false
    by (symmetry; apply Z.eqb_neq; unfold k; lia).
  replace (Z.of_nat ws + 1 =? Z.of_nat k - 1)%Z with false
    by (symmetry; apply Z.eqb_neq; unfold k; lia).
  cbn [orb]. unfold to_size_t. rewrite Z.mod_small by (unfold k; lia).
  replace (Z.of_nat k - 1 - (Z.of_nat ws + 1))%Z with (Z.of_nat (k - 1 - (ws + 1)))
    by (unfold k; lia).
  unfold strndup.
  assert (drop (ws + 1) map = drop (ws + 1 - length before) body ++ NL :: post) as Hdrop.
  { unfold map. rewrite drop_app_ge by lia. rewrite drop_app_le; [done|]. lia. }
  rewrite strndup_loop_plain; rewrite ?Nat2Z.id.
  - done.
  - lia.
  - rewrite Hdrop, length_app, length_drop. unfold k. lia.
  - rewrite Hdrop, take_app_le by (rewrite length_drop; unfold k; lia).
    apply Forall_take, Forall_drop.
    eapply Forall_impl; [done|]. apply terminator_not_NUL.
Qed.

(** ** Classification at the byte 0x80 *)

(** C5. In a trie whose nodes have their 128 slots, a symbol that starts
    with the byte 0x80 makes [get_type] read the slot 128 of the root: the
    test [**ws > 0x80] lets the byte through. *)
Theorem get_type_slot_128 trie rest len :
  trie_wf trie → (2 ≤ len)%Z →
  get_type trie (DOT :: NSLOTS :: rest) 0 len = Undef (SlotRange NSLOTS).
Proof.
  intros Hwf Hlen. unfold get_type. cbn [lookup list_lookup].
  rewrite Nat.eqb_refl. cbn [negb drop].
  apply get_type_loop_0x80; [done|lia].
Qed.

Lemma get_type_slot_128_witness :
  get_type the_trie [DOT; NSLOTS] 0 2 = Undef (SlotRange NSLOTS).
Proof. apply get_type_slot_128; [apply the_trie_wf|lia]. Defined.

(** C6. The symbol B followed by the byte 0x80 is not in the table, and
    its classification reads the slot 128 of the node of B. *)
Theorem classify_symbol_0x80 :
  (∀ d, d ∈ trofftypes → symbol d ≠ bytes "B" ++ [NSLOTS]) ∧
  get_type the_trie (DOT :: bytes "B" ++ [NSLOTS; 32]) 0 4 = Undef (SlotRange NSLOTS).
Proof.
  split; [|vm_compute; reflexivity].
  apply Forall_forall. unfold trofftypes.
  repeat (apply Forall_cons; split; [by vm_compute|]). apply Forall_nil_2.
Qed.

(** ** Loading *)


Lemma map_gzipped_data_deflate_inflated e ulen out log :
  inflate e = Inflated out →
  map_gzipped_data_deflate e FileMap AnonMap ulen log
    = (Some (AnonMap, ulen), log ++ [Munmap FileMap]).
Proof.
  intros Hi. unfold map_gzipped_data_deflate. rewrite Hi. reflexivity.
Qed.

(** X17. The loader on a gzip file that inflates, with the libdeflate
    implementation: the file mapping is released, and the anonymous
    mapping is returned with the length of the trailer. *)
Lemma map_troff_data_deflate_inflated e out :
  fstat_ok e = true → (18 ≤ st_size e)%Z → mmap_file_ok e = true →
  gzip_magic (contents e) = true → mmap_anon_ok e = true →
  inflate e = Inflated out →
  run (map_troff_data USE_DEFLATE e) =
    (Loaded AnonMap (inflated_region out (trailer_ulen (contents e)))
            (trailer_ulen (contents e)),
     [Mmap FileMap; Inspect; Mmap AnonMap; Munmap FileMap]).
Proof.
  intros Hf Hs Hm Hg Ha Hi. unfold run, map_troff_data.
  rewrite Hf, Hm, Hg, Ha. cbn [negb].
  destruct (st_size e <? 18)%Z eqn:E; [lia|].
  unfold emit, ret, mbind, M_bind, map_gzipped_data. cbn [app].
  rewrite (map_gzipped_data_deflate_inflated _ _ out) by done.
  by rewrite Hi.
Qed.


(** X18. With either implementation a payload that does not inflate has
    both mappings released, and the loader fails. *)
Lemma map_troff_data_not_inflated b e :
  fstat_ok e = true → (18 ≤ st_size e)%Z → mmap_file_ok e = true →
  gzip_magic (contents e) = true → mmap_anon_ok e = true →
  (∀ out, inflate e ≠ Inflated out) →
  run (map_troff_data b e) =
    (LoadFail DecompressFailed,
     [Mmap FileMap; Inspect; Mmap AnonMap; Munmap FileMap; Munmap AnonMap]).
Proof.
  intros Hf Hs Hm Hg Ha Hi. unfold run, map_troff_data.
  rewrite Hf, Hm, Hg, Ha. cbn [negb].
  destruct (st_size e <? 18)%Z eqn:E; [lia|].
  unfold emit, ret, mbind, M_bind. cbn [app].
  destruct b; cbn [map_gzipped_data];
    unfold map_gzipped_data_deflate, map_gzipped_data_zlib, munmap, emit, ret, mbind, M_bind;
    destruct (inflate e) as [| |out] eqn:Ei; try done; by destruct (Hi out).
Qed.


(** ** Mappings of a session *)

(** X19. With the libdeflate implementation every mapping of a session that
    returns is released once, whatever fails. *)
Lemma manloop_deflate_released_once e r log :
  run (manloop USE_DEFLATE e) = (Val r, log) → released_once log.
Proof.
  unfold run, manloop, get_troff_data, map_troff_data, map_gzipped_data,
    map_gzipped_data_deflate, munmap, emit, ret, mbind, M_bind.
  rewrite trofftrie_builds.
  destruct (open_ok e); cbn [negb]; [|intros [= _ <-]; by intros []].
  destruct (fstat_ok e); cbn [negb]; [|intros [= _ <-]; by intros []].
  destruct (st_size e <? 18)%Z; [intros [= _ <-]; by intros []|].
  destruct (mmap_file_ok e); cbn [negb]; [|intros [= _ <-]; by intros []].
  destruct (gzip_magic (contents e)).
  - destruct (mmap_anon_ok e); cbn [negb app]; [|intros [= _ <-]; by intros []].
    destruct (inflate e) as [| |out]; cbn [app];
      [intros [= _ <-]; by intros []..|].
    destruct (troff_parse _ _ _) as [[d [|err]]|f]; [| |done].
    + destruct (ui e); intros [= _ <-]; by intros [].
    + intros [= _ <-]; by intros [].
  - cbn [app].
    destruct (troff_parse _ _ _) as [[d [|err]]|f]; [| |done].
    + destruct (ui e); intros [= _ <-]; by intros [].
    + intros [= _ <-]; by intros [].
Qed.



(** X20. With the libz implementation the mappings of every session that
    returns are released once, unless a gzip payload inflates. *)
Lemma manloop_zlib_released_once e r log :
  (∀ out, inflate e ≠ Inflated out) ∨ gzip_magic (contents e) = false →
  run (manloop USE_ZLIB e) = (Val r, log) → released_once log.
Proof.
  intros Hne.
  unfold run, manloop, get_troff_data, map_troff_data, map_gzipped_data,
    map_gzipped_data_zlib, munmap, emit, ret, mbind, M_bind.
  rewrite trofftrie_builds.
  destruct (open_ok e); cbn [negb]; [|intros [= _ <-]; by intros []].
  destruct (fstat_ok e); cbn [negb]; [|intros [= _ <-]; by intros []].
  destruct (st_size e <? 18)%Z; [intros [= _ <-]; by intros []|].
  destruct (mmap_file_ok e); cbn [negb]; [|intros [= _ <-]; by intros []].
  destruct (gzip_magic (contents e)).
  - destruct (mmap_anon_ok e); cbn [negb app]; [|intros [= _ <-]; by intros []].
    destruct (inflate e) as [| |out]; cbn [app];
      [intros [= _ <-]; by intros []..|].
    destruct Hne as [Hne|]; [|done]. by destruct (Hne out).
  - cbn [app].
    destruct (troff_parse _ _ _) as [[d [|err]]|f]; [| |done].
    + destruct (ui e); intros [= _ <-]; by intros [].
    + intros [= _ <-]; by intros [].
Qed.

(** ** The size of the file *)

(** C9. After [fstat], a file of less than 18 bytes is refused as too small
    with nothing mapped and nothing inspected; a file of 18 bytes or more
    is never refused as too small, and its first bytes are inspected once
    it is mapped. *)
Theorem size_boundary b e :
  fstat_ok e = true →
  (length (contents e) < 18 →
     run (map_troff_data b e) = (LoadFail TooSmall, [])) ∧
  (18 ≤ length (contents e) →
     (run (map_troff_data b e)).1 ≠ LoadFail TooSmall ∧
     (mmap_file_ok e = false → run (map_troff_data b e) = (LoadFail MapFailed, [])) ∧
     (mmap_file_ok e = true →
        take 2 (run (map_troff_data b e)).2 = [Mmap FileMap; Inspect])).
Proof.
  intros Hf. unfold run, map_troff_data, st_size. rewrite Hf. cbn [negb]. split.
  - intros Hlt. destruct (_ <? 18)%Z eqn:E; [done|]. apply Z.ltb_ge in E. lia.
  - intros Hge. destruct (_ <? 18)%Z eqn:E; [apply Z.ltb_lt in E; lia|].
    destruct (mmap_file_ok e); cbn [negb]; [|done].
    unfold emit, ret, mbind, M_bind. cbn [app].
    destruct (gzip_magic (contents e)); [|done].
    destruct (mmap_anon_ok e); cbn [negb]; [|done].
    unfold munmap, emit. cbn [app].
    destruct b; cbn [map_gzipped_data];
      unfold map_gzipped_data_deflate, map_gzipped_data_zlib, munmap, emit, ret, mbind, M_bind;
      destruct (inflate e); done.
Qed.

Lemma size_boundary_witness :
  let small := {| open_ok := true; fstat_ok := true; contents := replicate 17 65;
                  mmap_file_ok := true; mmap_anon_ok := true;
                  inflate := DataError; ui := Quit |} in
  let exact := {| open_ok := true; fstat_ok := true; contents := replicate 18 65;
                  mmap_file_ok := true; mmap_anon_ok := true;
                  inflate := DataError; ui := Quit |} in
  run (map_troff_data USE_DEFLATE small) = (LoadFail TooSmall, []) ∧
  (run (map_troff_data USE_DEFLATE exact)).1 ≠ LoadFail TooSmall ∧
  take 2 (run (map_troff_data USE_DEFLATE exact)).2 = [Mmap FileMap; Inspect].
Proof.
  intros small exact.
  destruct (size_boundary USE_DEFLATE small) as [H1 _]; [reflexivity|].
  destruct (size_boundary USE_DEFLATE exact) as [_ H2]; [reflexivity|].
  destruct H2 as (H2 & _ & H3); [vm_compute; lia|].
  split; [apply H1; vm_compute; lia|]. split; [exact H2|apply H3; reflexivity].
Defined.

(** * Further properties *)

(** ** Which tables build, and what their tries classify *)

Lemma trie_insert_legal t s : ∀ n n',
  trie_insert t s n = inr n' → Forall (λ c, c < NSLOTS) s.
Proof.
  induction s as [|c s IH]; intros n n'; [by constructor|].
  cbn [trie_insert].
  destruct (as_char c <? 0)%Z eqn:E1; [done|].
  destruct (NSLOTS <? c) eqn:E2; [done|].
  destruct (next n !! c) as [slot|]; [|done].
  destruct (trie_insert t s _) as [|child'] eqn:Hi; [done|]. intros _.
  constructor; [|by eapply IH].
  apply Nat.ltb_ge in E2. apply Z.ltb_ge in E1. unfold as_char, NSLOTS in *.
  destruct (128 <=? c) eqn:E3; [|by apply Nat.leb_gt in E3].
  apply Nat.leb_le in E3. lia.
Qed.

Lemma as_char_legal c : c < NSLOTS → (as_char c <? 0)%Z = false.
Proof.
  unfold as_char, NSLOTS. intros H.
  replace (128 <=? c) with false by (symmetry; apply Nat.leb_gt; lia).
  apply Z.ltb_ge. lia.
Qed.

(** On a well-formed trie, a symbol of ASCII bytes whose path has no
    descriptor is inserted. *)
Lemma trie_insert_succeeds t s : ∀ n,
  trie_wf n → Forall (λ c, c < NSLOTS) s → tag_at n s = None →
  ∃ n', trie_insert t s n = inr n'.
Proof.
  induction s as [|c s IH]; intros n Hwf Hs Ht.
  - cbn [trie_insert tag_at] in *. rewrite Ht. by eexists.
  - apply Forall_cons in Hs as [Hc Hs]. cbn [trie_insert].
    rewrite as_char_legal by done.
    replace (NSLOTS <? c) with false by (symmetry; apply Nat.ltb_ge; lia).
    destruct (lookup_lt_is_Some_2 (next n) c) as [slot Hslot];
      [by rewrite trie_wf_length|].
    rewrite Hslot. rewrite (tag_at_default_slot _ _ _ _ Hslot) in Ht.
    destruct (IH (default zeroed_node slot)) as [child' Hi];
      [by eapply trie_wf_default_slot|done|done|].
    replace (match slot with Some ch => ch | None => zeroed_node end)
      with (default zeroed_node slot) by by destruct slot.
    rewrite Hi. by eexists.
Qed.

Lemma nonempty_symbols_cons t table :
  nonempty_symbols (t :: table) =
    if length (symbol t) =? 0 then nonempty_symbols table
    else symbol t :: nonempty_symbols table.
Proof.
  unfold nonempty_symbols. rewrite fmap_cons, filter_cons.
  destruct (symbol t) as [|c s]; [by rewrite decide_False by auto|].
  by rewrite decide_True by done.
Qed.

Lemma nonempty_symbols_elem table s :
  s ∈ nonempty_symbols table ↔ ∃ d, d ∈ table ∧ symbol d = s ∧ s ≠ [].
Proof.
  unfold nonempty_symbols. rewrite list_elem_of_filter, list_elem_of_fmap.
  split.
  - intros (Hne & d & -> & Hd). by exists d.
  - intros (d & Hd & <- & Hne). split; [done|]. by exists d.
Qed.

Lemma trie_build_inv table : ∀ root root',
  trie_build table root = inr root' →
  Forall (λ d, Forall (λ c, c < NSLOTS) (symbol d)) table ∧
  NoDup (nonempty_symbols table) ∧
  ∀ s, s ∈ nonempty_symbols table → tag_at root s = None.
Proof.
  induction table as [|t table IH]; intros root root' Hb.
  - split; [constructor|]. split; [constructor|]. by intros s ?%elem_of_nil.
  - rewrite trie_build_cons in Hb. rewrite nonempty_symbols_cons.
    destruct (length (symbol t) =? 0) eqn:El.
    + destruct (IH _ _ Hb) as (Hl & Hn & Ht). split; [|done].
      constructor; [|done]. apply Nat.eqb_eq in El.
      destruct (symbol t); [constructor|done].
    + destruct (trie_insert t (symbol t) root) as [|r] eqn:Hi; [done|].
      destruct (IH _ _ Hb) as (Hl & Hn & Ht). split; [|split].
      * constructor; [by eapply trie_insert_legal|done].
      * constructor; [|done]. intros Hin. apply Ht in Hin.
        apply trie_insert_tag in Hi. congruence.
      * intros s [->|Hin]%elem_of_cons; [by eapply trie_insert_fresh|].
        rewrite <- (trie_insert_other _ _ _ _ s Hi); [by apply Ht|].
        intros ->. apply Ht in Hin. apply trie_insert_tag in Hi. congruence.
Qed.

Lemma trie_build_succeeds table : ∀ root,
  trie_wf root →
  Forall (λ d, Forall (λ c, c < NSLOTS) (symbol d)) table →
  NoDup (nonempty_symbols table) →
  (∀ s, s ∈ nonempty_symbols table → tag_at root s = None) →
  ∃ root', trie_build table root = inr root'.
Proof.
  induction table as [|t table IH]; intros root Hwf Hl Hn Ht; [by eexists|].
  apply Forall_cons in Hl as [Hlt Hl].
  rewrite trie_build_cons. rewrite nonempty_symbols_cons in Hn, Ht.
  destruct (length (symbol t) =? 0) eqn:El; [by apply IH|].
  apply NoDup_cons in Hn as [Hnt Hn].
  destruct (trie_insert_succeeds t (symbol t) root) as [r Hi];
    [done|done|apply Ht, elem_of_cons; by left|].
  rewrite Hi. apply IH; [by eapply trie_insert_wf|done|done|].
  intros s Hin. rewrite (trie_insert_other _ _ _ _ s Hi) by (by intros ->).
  apply Ht, elem_of_cons. by right.
Qed.

(** X1. [trofftrie] over a table succeeds exactly when every symbol is made
    of bytes below 0x80 and no symbol, the empty one apart, is in the table
    twice. *)
Theorem trofftrie_of_builds_iff table :
  (∃ tr, trofftrie_of table = inr tr) ↔
  Forall (λ d, Forall (λ c, c < NSLOTS) (symbol d)) table ∧
  NoDup (nonempty_symbols table).
Proof.
  unfold trofftrie_of. split.
  - intros [tr Hb]. by destruct (trie_build_inv _ _ _ Hb) as (? & ? & _).
  - intros [Hl Hn]. apply trie_build_succeeds; [apply trie_wf_zeroed|done|done|].
    intros s _. apply tag_at_zeroed.
Qed.

(** The descriptors of the trie of a table are those of the table, each
    at its symbol. *)
Lemma tag_at_exact table tr sym d :
  trofftrie_of table = inr tr →
  tag_at tr sym = Some d ↔ d ∈ table ∧ symbol d = sym ∧ sym ≠ [].
Proof.
  intros Hb. split.
  - intros Hd.
    destruct (decide (sym ∈ nonempty_symbols table)) as [Hin|Hout].
    + apply nonempty_symbols_elem in Hin as (d' & Hd' & <- & Hne).
      rewrite (trie_build_registered _ _ _ d' Hb Hd' Hne) in Hd.
      injection Hd as <-. done.
    + rewrite (trie_build_unregistered _ _ _ sym Hb), tag_at_zeroed in Hd; [done|].
      intros d' Hd' Hne Heq. apply Hout, nonempty_symbols_elem. exists d'.
      split; [done|]. split; [done|]. by rewrite <- Heq.
  - intros (Hd & <- & Hne). by apply (trie_build_registered _ _ _ d Hb).
Qed.

Lemma trofftrie_of_wf table tr : trofftrie_of table = inr tr → trie_wf tr.
Proof. intros Hb. eapply trie_build_wf; [exact Hb|apply trie_wf_zeroed]. Qed.

(** X2. Classification by the trie of any table that builds is the exact
    lookup of the symbol in the table: a symbol without blank, NUL or 0x80
    that a blank follows inside the bound is given the descriptor of the
    table that has this symbol, and none when there is no such one. *)
Theorem classify_exact table tr sym w rest len :
  trofftrie_of table = inr tr →
  Forall (λ c, symbol_byte c = true) sym →
  isspace w = true →
  (Z.of_nat (length sym) + 1 < len)%Z →
  ∃ r ws', get_type tr (DOT :: sym ++ w :: rest) 0 len = Val (r, ws') ∧
           (∀ d, r = Some d ↔ d ∈ table ∧ symbol d = sym ∧ sym ≠ []) ∧
           (is_Some r → ws' = 1 + length sym).
Proof.
  intros Hb Hsym Hw Hlen.
  destruct (get_type_symbol tr [] sym w rest len) as (ws' & E & Hs).
  - by eapply trofftrie_of_wf.
  - done.
  - unfold stops. by rewrite Hw.
  - done.
  - cbn [app length] in E, Hs. exists (tag_at tr sym), ws'.
    split; [done|]. split; [|done]. intros d. by apply tag_at_exact.
Qed.

Lemma classify_exact_witness :
  ∃ r ws', get_type the_trie (DOT :: bytes "SH" ++ 32 :: bytes "NAME") 0 8 = Val (r, ws') ∧
           (∀ d, r = Some d ↔ d ∈ trofftypes ∧ symbol d = bytes "SH" ∧ bytes "SH" ≠ []) ∧
           (is_Some r → ws' = 1 + length (bytes "SH")).
Proof.
  apply (classify_exact trofftypes the_trie (bytes "SH") 32 (bytes "NAME") 8).
  - apply trofftrie_builds.
  - vm_compute. repeat constructor.
  - reflexivity.
  - vm_compute. reflexivity.
Defined.

(** The scan of a symbol that ends where the bound ends. *)
Lemma get_type_loop_symbol_bound sym : ∀ trie rest ws,
  trie_wf trie →
  Forall (λ c, symbol_byte c = true) sym →
  ∃ ws', get_type_loop trie (sym ++ rest) ws (Z.of_nat (length sym))
           = Val (tag_at trie sym, ws')
         ∧ (is_Some (tag_at trie sym) → ws' = ws + length sym).
Proof.
  induction sym as [|c sym IH]; intros trie rest ws Hwf Hsym.
  - exists ws. cbn [app length tag_at]. split; [by destruct rest|]. lia.
  - apply Forall_cons in Hsym as [Hc Hsym].
    apply symbol_byte_inv in Hc as (Hsp & Hnul & H128).
    cbn [app get_type_loop tag_at length].
    destruct (Z.of_nat (S (length sym)) =? 0)%Z eqn:E; [apply Z.eqb_eq in E; lia|].
    rewrite Hsp, Hnul.
    pose proof (trie_wf_length _ Hwf) as Hl.
    destruct (NSLOTS <? c) eqn:Hgt.
    + apply Nat.ltb_lt in Hgt. rewrite (lookup_ge_None_2 (next trie) c) by lia.
      exists ws. split; [done|]. by intros [? ?].
    + apply Nat.ltb_ge in Hgt.
      destruct (lookup_lt_is_Some_2 (next trie) c) as [slot Hslot]; [lia|].
      rewrite Hslot. destruct slot as [ch|].
      * replace (Z.of_nat (S (length sym)) - 1)%Z with (Z.of_nat (length sym)) by lia.
        destruct (IH ch rest (S ws)) as (ws' & -> & Hs); [by eapply trie_wf_child|done|].
        exists ws'. split; [done|]. intros H. rewrite Hs by done. lia.
      * exists ws. split; [done|]. by intros [? ?].
Qed.

(** X3. A symbol that ends where the bound ends, as on a last line without
    a newline, is classified as when a blank follows it: by the exact
    lookup in the table, whatever lies beyond the bound. *)
Theorem classify_at_bound table tr sym rest :
  trofftrie_of table = inr tr →
  Forall (λ c, symbol_byte c = true) sym →
  ∃ r ws', get_type tr (DOT :: sym ++ rest) 0 (Z.of_nat (length sym) + 1) = Val (r, ws') ∧
           (∀ d, r = Some d ↔ d ∈ table ∧ symbol d = sym ∧ sym ≠ []) ∧
           (is_Some r → ws' = 1 + length sym).
Proof.
  intros Hb Hsym. unfold get_type. cbn [lookup list_lookup drop].
  rewrite Nat.eqb_refl. cbn [negb].
  replace (Z.of_nat (length sym) + 1 - 1)%Z with (Z.of_nat (length sym)) by lia.
  rewrite drop_0.
  destruct (get_type_loop_symbol_bound sym tr rest 1) as (ws' & -> & Hs);
    [by eapply trofftrie_of_wf|done|].
  exists (tag_at tr sym), ws'. split; [done|]. split; [|done].
  intros d. by apply tag_at_exact.
Qed.

Lemma classify_at_bound_witness :
  ∃ r ws', get_type the_trie (DOT :: bytes "TH" ++ []) 0 3 = Val (r, ws') ∧
           (∀ d, r = Some d ↔ d ∈ trofftypes ∧ symbol d = bytes "TH" ∧ bytes "TH" ≠ []) ∧
           (is_Some r → ws' = 1 + length (bytes "TH")).
Proof.
  apply (classify_at_bound trofftypes the_trie (bytes "TH") []).
  - apply trofftrie_builds.
  - vm_compute. repeat constructor.
Defined.

Lemma get_type_in_bound_witness :
  (∀ off, get_type the_trie (bytes ".TH x") 0 3 ≠ Undef (ReadPast off)) ∧
  get_type the_trie (take (0 + Z.to_nat 3) (bytes ".TH x")) 0 3
    = get_type the_trie (bytes ".TH x") 0 3.
Proof. apply get_type_in_bound; [lia|vm_compute; lia]. Defined.

Lemma get_type_loop_above_witness :
  get_type_loop the_trie (200 :: bytes "x") 1 3 = Val (None, 1).
Proof. apply get_type_loop_above; [unfold NSLOTS; lia|lia]. Defined.

(** ** What a line is *)

Lemma stops_terminator c : stops c = false → terminator c = false.
Proof.
  unfold stops, terminator, isspace, NL, NUL.
  intros [[H1 H2]%orb_false_iff H3]%orb_false_iff. rewrite H3, orb_false_r.
  apply Nat.eqb_neq. intros ->. done.
Qed.

Lemma get_type_loop_passes trie s : ∀ ws len node ws',
  get_type_loop trie s ws len = Val (node, ws') →
  ∀ i c, i < ws' - ws → s !! i = Some c → terminator c = false.
Proof.
  revert trie. induction s as [|c0 s IH]; intros trie ws len node ws';
    cbn [get_type_loop].
  - destruct (len =? 0)%Z; [|done]. intros [= _ <-] i c Hi. lia.
  - destruct (len =? 0)%Z; [intros [= _ <-] i c Hi; lia|].
    destruct (isspace c0) eqn:Hsp; [intros [= _ <-] i c Hi; lia|].
    destruct (c0 =? NUL) eqn:Hnul; [intros [= _ <-] i c Hi; lia|].
    destruct (NSLOTS <? c0); [intros [= _ <-] i c Hi; lia|].
    destruct (next trie !! c0) as [[ch|]|]; [|intros [= _ <-] i c Hi; lia|done].
    intros Hg [|i] c Hi.
    + intros [= <-]. apply stops_terminator. unfold stops. by rewrite Hsp, Hnul.
    + cbn [lookup list_lookup]. eapply IH; [exact Hg|lia].
Qed.

Lemma find_eol_passes s : ∀ eol left eol' left',
  find_eol s eol left = Val (eol', left') →
  eol ≤ eol' ∧
  (∀ i c, i < eol' - eol → s !! i = Some c → terminator c = false) ∧
  (left' = 0%Z ∨ s !! (eol' - eol) = Some NL ∨ s !! (eol' - eol) = Some NUL).
Proof.
  induction s as [|c0 s IH]; intros eol left eol' left'; cbn [find_eol].
  - destruct (left =? 0)%Z eqn:E; [|done]. apply Z.eqb_eq in E.
    intros [= <- <-]. split; [lia|]. split; [intros; lia|by left].
  - destruct (left =? 0)%Z eqn:E.
    { apply Z.eqb_eq in E. intros [= <- <-].
      split; [lia|]. split; [intros; lia|by left]. }
    destruct (c0 =? NL) eqn:Hnl.
    { apply Nat.eqb_eq in Hnl as ->. intros [= <- <-].
      split; [lia|]. split; [intros; lia|]. right. left. by rewrite Nat.sub_diag. }
    destruct (c0 =? NUL) eqn:Hnul.
    { apply Nat.eqb_eq in Hnul as ->. intros [= <- <-].
      split; [lia|]. split; [intros; lia|]. right. right. by rewrite Nat.sub_diag. }
    intros Hf. destruct (IH _ _ _ _ Hf) as (Hle & Hp & Ht).
    split; [lia|]. split.
    + intros [|i] c Hi.
      * intros [= <-]. unfold terminator. by rewrite Hnl, Hnul.
      * cbn [lookup list_lookup]. apply Hp. lia.
    + replace (eol' - eol) with (S (eol' - S eol)) by lia. done.
Qed.

(** X6. Inside the buffer a line runs from its start to the first newline
    or NUL, or to the end of the buffer when there is none: no byte before
    [eol] is one of the two, [ws] lies in the line, and [feol] is [eol]
    less one at a newline and [eol] otherwise. The search reads no byte
    outside the buffer. *)
Theorem scan_line_first_terminator tr map mlen off :
  off < mlen → mlen ≤ length map →
  match scan_line tr map mlen off off with
  | Undef f => ∃ c, f = SlotRange c
  | Val (node, ws, eol, feol) =>
      off ≤ ws ≤ eol ∧ eol ≤ mlen ∧
      (∀ i c, off ≤ i < eol → map !! i = Some c → terminator c = false) ∧
      (eol = mlen ∧ feol = Z.of_nat eol ∨
       eol < mlen ∧ map !! eol = Some NUL ∧ feol = Z.of_nat eol ∨
       eol < mlen ∧ map !! eol = Some NL ∧ feol = (Z.of_nat eol - 1)%Z)
  end.
Proof.
  intros Hoff Hlen. unfold scan_line, get_type.
  destruct (lookup_lt_is_Some_2 map off) as [c0 Hc0]; [lia|]. rewrite Hc0.
  set (left := (Z.of_nat mlen - Z.of_nat off)%Z).
  assert (∀ r : access (option trofftype * nat),
    (∀ node ws, r = Val (node, ws) →
       off ≤ ws ∧ (Z.of_nat ws - Z.of_nat off ≤ left)%Z ∧
       ∀ i c, off ≤ i < ws → map !! i = Some c → terminator c = false) →
    (∀ f, r = Undef f → ∃ c, f = SlotRange c) →
    match ('(node, ws) ← r;
           '(eol, left') ← find_eol (drop ws map) ws (left - (Z.of_nat ws - Z.of_nat off));
           feol ← functional_eol map eol left'; Val (node, ws, eol, feol)) with
    | Undef f => ∃ c, f = SlotRange c
    | Val (node, ws, eol, feol) =>
        off ≤ ws ≤ eol ∧ eol ≤ mlen ∧
        (∀ i c, off ≤ i < eol → map !! i = Some c → terminator c = false) ∧
        (eol = mlen ∧ feol = Z.of_nat eol ∨
         eol < mlen ∧ map !! eol = Some NUL ∧ feol = Z.of_nat eol ∨
         eol < mlen ∧ map !! eol = Some NL ∧ feol = (Z.of_nat eol - 1)%Z)
    end) as H.
  { intros [[node ws]|f] Hv Hu; cbn [mbind access_bind]; [|by apply Hu].
    destruct (Hv node ws eq_refl) as (Hws & Hwl & Hpl).
    destruct (find_eol_range (drop ws map) ws (left - (Z.of_nat ws - Z.of_nat off)))
      as (eol & Hfe & He & Hel); [lia|rewrite length_drop; unfold left in *; lia|].
    rewrite Hfe. apply find_eol_passes in Hfe as (_ & Hp & Ht).
    cbn [mbind access_bind]. unfold functional_eol.
    assert (∀ i c, off ≤ i < eol → map !! i = Some c → terminator c = false) as Hall.
    { intros i c Hi Hm. destruct (decide (i < ws)) as [?|?]; [apply (Hpl i c); [lia|done]|].
      apply (Hp (i - ws) c); [lia|]. rewrite lookup_drop. by replace (ws + (i - ws)) with i by lia. }
    destruct (_ =? 0)%Z eqn:E; cbn [mbind access_bind].
    { apply Z.eqb_eq in E. split; [lia|]. split; [unfold left in *; lia|].
      split; [done|]. left. unfold left in *. lia. }
    apply Z.eqb_neq in E. destruct Ht as [Ht|Ht]; [lia|].
    rewrite lookup_drop in Ht. replace (ws + (eol - ws)) with eol in Ht by lia.
    assert (eol < mlen) by (unfold left in *; lia).
    destruct Ht as [Ht|Ht]; rewrite Ht; cbn [mbind access_bind];
      (split; [lia|]); (split; [lia|]); (split; [done|]); right; [right|left]; done. }
  apply H.
  - intros node ws. destruct (negb (c0 =? DOT)) eqn:Hdot.
    + intros [= _ <-]. split; [lia|]. split; [unfold left; lia|]. intros; lia.
    + intros Hg. apply negb_false_iff, Nat.eqb_eq in Hdot as ->.
      pose proof Hg as Hg2.
      apply get_type_loop_range in Hg2 as [? ?]; [|unfold left; lia].
      split; [lia|]. split; [lia|]. intros i c Hi Hm.
      destruct (decide (i = off)) as [->|Hne].
      * rewrite Hc0 in Hm. by injection Hm as <-.
      * apply (get_type_loop_passes _ _ _ _ _ _ Hg (i - S off) c); [lia|].
        rewrite lookup_drop. by replace (S off + (i - S off)) with i by lia.
  - intros f. destruct (negb (c0 =? DOT)); [done|].
    apply get_type_loop_faults; [unfold left; lia|].
    rewrite length_drop. unfold left. lia.
Qed.

Lemma scan_line_first_terminator_witness :
  match scan_line the_trie (bytes ".SH NAME" ++ [NL] ++ bytes "x") 10 0 0 with
  | Undef f => ∃ c, f = SlotRange c
  | Val (node, ws, eol, feol) =>
      0 ≤ ws ≤ eol ∧ eol ≤ 10 ∧
      (∀ i c, 0 ≤ i < eol → (bytes ".SH NAME" ++ [NL] ++ bytes "x") !! i = Some c
              → terminator c = false) ∧
      (eol = 10 ∧ feol = Z.of_nat eol ∨
       eol < 10 ∧ (bytes ".SH NAME" ++ [NL] ++ bytes "x") !! eol = Some NUL
         ∧ feol = Z.of_nat eol ∨
       eol < 10 ∧ (bytes ".SH NAME" ++ [NL] ++ bytes "x") !! eol = Some NL
         ∧ feol = (Z.of_nat eol - 1)%Z)
  end.
Proof.
  apply (scan_line_first_terminator the_trie (bytes ".SH NAME" ++ [NL] ++ bytes "x") 10 0).
  - lia.
  - vm_compute. lia.
Defined.

(** X7. A turn of the loop that goes on keeps [line] at [map + off], and
    moves both past the end of the line it has handled. *)
Theorem troff_turn_in_step tr map mlen off dom dom' off' line' :
  off < mlen → mlen ≤ length map →
  troff_turn tr map mlen off off dom = Val (Next dom' off' line') →
  line' = off' ∧ off < off' ≤ mlen + 1.
Proof.
  intros Hoff Hlen. unfold troff_turn.
  pose proof (scan_line_inside tr map mlen off Hoff Hlen) as Hs.
  destruct (scan_line tr map mlen off off) as [[[[node ws] eol] feol]|f]; [|done].
  cbn [mbind access_bind].
  assert (∀ d, Val (Next d (off + (eol - off) + 1) (eol + 1)) = Val (Next dom' off' line')
               → line' = off' ∧ off < off' ≤ mlen + 1) as H
    by (intros d [= _ <- <-]; lia).
  destruct node as [t|]; [|apply H]. destruct (is_TH t); [|apply H].
  destruct (title_line map ws feol dom) as [[d st]|]; [|done].
  cbn [mbind access_bind]. destruct st; [apply H|done].
Qed.

Lemma troff_turn_in_step_witness :
  let map := bytes ".SH NAME" ++ [NL] ++ bytes "x" in
  ∃ dom', troff_turn the_trie map 10 0 0 empty_dom = Val (Next dom' 9 9) ∧
          9 = 9 ∧ 0 < 9 ≤ 10 + 1.
Proof.
  intros map. exists empty_dom.
  assert (troff_turn the_trie map 10 0 0 empty_dom = Val (Next empty_dom 9 9)) as H
    by (vm_compute; reflexivity).
  split; [exact H|].
  apply (troff_turn_in_step the_trie map 10 0 empty_dom empty_dom 9 9);
    [lia|vm_compute; lia|exact H].
Defined.

(** ** What a parse leaves in the document *)

Lemma run_lines_titled map ls dom :
  is_Some (title dom) → title_lines ls = [] →
  run_lines map ls dom = Val (dom, Ret0).
Proof.
  intros [t Ht]. induction ls as [|l ls IH].
  - intros _. cbn [run_lines]. unfold dom_get_title. by rewrite Ht.
  - unfold title_lines. rewrite filter_cons. cbn [run_lines].
    destruct (is_title_line l) eqn:Hl.
    + by rewrite decide_True by done.
    + rewrite decide_False by done. apply IH.
Qed.

Lemma run_lines_single map ls dom l1 :
  title_lines ls = [l1] →
  run_lines map ls dom = title_line map l1.1.2 l1.2 dom.
Proof.
  induction ls as [|l ls IH]; [done|].
  unfold title_lines. rewrite filter_cons. cbn [run_lines].
  destruct (is_title_line l) eqn:Hl.
  - rewrite decide_True by done. intros [= -> Hrest].
    destruct (title_line map l1.1.2 l1.2 dom) as [[dom' st]|] eqn:Ht; [|done].
    cbn [mbind access_bind]. destruct st; [|done].
    apply run_lines_titled; [by eapply title_line_ok|done].
  - rewrite decide_False by done. apply IH.
Qed.

(** X8. When every line is classified and one line is a title line, the
    parse is what this line gives: the other lines, whatever their macro,
    change neither the document nor the result. *)
Theorem parse_single_title map mlen tr dom ls l1 :
  trie dom = Some tr →
  lines_of tr map mlen = Val ls →
  title_lines ls = [l1] →
  troff_parse map mlen dom = title_line map l1.1.2 l1.2 dom.
Proof.
  intros Htr Hls Hl. unfold troff_parse. rewrite Htr.
  rewrite (troff_loop_lines _ _ _ _ _ _ dom _ Hls). by apply run_lines_single.
Qed.

Lemma parse_single_title_witness :
  let map := bytes ".SH NAME" ++ [NL] ++ bytes ".TH a b c" ++ [NL] ++ bytes ".PP" ++ [NL] in
  let dom := set_trie empty_dom the_trie in
  troff_parse map (length map) dom = title_line map 12 17%Z dom.
Proof.
  intros map dom.
  pose (th := {| ltype := LINE_TH; symbol := bytes "TH"; ttype := TROFF_STRUCTURE |}).
  pose (ls := match lines_of the_trie map (length map) with Val l => l | Undef _ => [] end).
  apply (parse_single_title map (length map) the_trie dom ls (Some th, 12, 17%Z)).
  - reflexivity.
  - vm_compute. reflexivity.
  - vm_compute. reflexivity.
Defined.

Lemma lex_section_frame dom tok q :
  let d := (lex_section dom tok q).1 in
  root d = root dom ∧ trie d = trie dom ∧ version d = version dom ∧ title d = title dom.
Proof.
  unfold lex_section. destruct (scan_token q (tl tok)) as [[run e] q'].
  by destruct (peek e =? NUL).
Qed.

Lemma lex_section_result dom tok q :
  match lex_section dom tok q with
  | (d, Ret0) => is_Some (section d)
  | (d, RetErr e) => e = SectionExtraction ∧ d = dom
  end.
Proof.
  unfold lex_section. destruct (scan_token q (tl tok)) as [[run e] q'].
  destruct (peek e =? NUL); [done|]. by eexists.
Qed.

(** X9. Title lexing never touches the root node, the trie or the version.
    When it succeeds, title and section are set; when it fails for the
    title, the document is as it was; when it fails for the section, the
    title is set and the section is as it was. It fails in no other way. *)
Theorem lex_title_text_outcome txt dom :
  match lex_title_text txt dom with
  | (d, st) =>
      root d = root dom ∧ trie d = trie dom ∧ version d = version dom ∧
      match st with
      | Ret0 => is_Some (title d) ∧ is_Some (section d)
      | RetErr TitleExtraction => d = dom
      | RetErr SectionExtraction => is_Some (title d) ∧ section d = section dom
      | RetErr _ => False
      end
  end.
Proof.
  unfold lex_title_text. destruct (open_token txt) as [tok q].
  destruct (peek tok =? NUL); [done|].
  destruct (scan_token q (tl tok)) as [[run e] q'].
  destruct (peek e =? NUL); [done|].
  destruct (peek (tl e) =? NUL); [by repeat split; try done; eexists|].
  assert (∀ tok2 q2,
    match lex_section (set_title dom (peek tok :: run)) tok2 q2 with
    | (d, st) =>
        root d = root dom ∧ trie d = trie dom ∧ version d = version dom ∧
        match st with
        | Ret0 => is_Some (title d) ∧ is_Some (section d)
        | RetErr TitleExtraction => d = dom
        | RetErr SectionExtraction => is_Some (title d) ∧ section d = section dom
        | RetErr _ => False
        end
    end) as Hs.
  { intros tok2 q2.
    pose proof (lex_section_frame (set_title dom (peek tok :: run)) tok2 q2) as Hf.
    pose proof (lex_section_result (set_title dom (peek tok :: run)) tok2 q2) as Hr.
    destruct (lex_section _ tok2 q2) as [d st]. cbn [fst] in Hf.
    destruct Hf as (Hroot & Htrie & Hver & Htitle). cbn [root trie version title set_title] in *.
    split; [done|]. split; [done|]. split; [done|].
    destruct st as [|err].
    - split; [rewrite Htitle; by eexists|done].
    - destruct Hr as [-> ->]. cbn [title section set_title]. split; [by eexists|done]. }
  destruct (negb q'); [|apply Hs].
  destruct (open_token (tl e)) as [tok2 q2].
  destruct (peek tok2 =? NUL); [by repeat split; try done; eexists|]. apply Hs.
Qed.

Lemma lex_title_text_keeps txt dom :
  trie (lex_title_text txt dom).1 = trie dom ∧
  version (lex_title_text txt dom).1 = version dom.
Proof.
  unfold lex_title_text. destruct (open_token txt) as [tok q].
  destruct (peek tok =? NUL); [done|].
  destruct (scan_token q (tl tok)) as [[run e] q'].
  destruct (peek e =? NUL); [done|].
  destruct (peek (tl e) =? NUL); [done|].
  assert (∀ tok2 q2,
    trie (lex_section (set_title dom (peek tok :: run)) tok2 q2).1 = trie dom ∧
    version (lex_section (set_title dom (peek tok :: run)) tok2 q2).1 = version dom) as Hs.
  { intros tok2 q2.
    by destruct (lex_section_frame (set_title dom (peek tok :: run)) tok2 q2)
      as (_ & ? & ? & _). }
  destruct (negb q'); [|apply Hs].
  destruct (open_token (tl e)) as [tok2 q2].
  destruct (peek tok2 =? NUL); [done|]. apply Hs.
Qed.

Lemma lex_title_text_section txt dom d :
  lex_title_text txt dom = (d, Ret0) → is_Some (section d).
Proof.
  unfold lex_title_text. destruct (open_token txt) as [tok q].
  destruct (peek tok =? NUL); [done|].
  destruct (scan_token q (tl tok)) as [[run e] q'].
  destruct (peek e =? NUL); [done|].
  destruct (peek (tl e) =? NUL); [done|].
  assert (∀ tok2 q2, lex_section (set_title dom (peek tok :: run)) tok2 q2 = (d, Ret0) →
            is_Some (section d)) as Hs.
  { intros tok2 q2 H.
    pose proof (lex_section_result (set_title dom (peek tok :: run)) tok2 q2) as Hr.
    by rewrite H in Hr. }
  destruct (negb q'); [|apply Hs].
  destruct (open_token (tl e)) as [tok2 q2].
  destruct (peek tok2 =? NUL); [done|]. apply Hs.
Qed.

Lemma title_line_frame map ws feol dom dom' st :
  title_line map ws feol dom = Val (dom', st) →
  trie dom' = trie dom ∧ version dom' = version dom ∧
  (st = Ret0 → complete dom').
Proof.
  unfold title_line. destruct (dom_get_title dom); [by intros [= <- <-]|].
  destruct (_ || _)%Z; [by intros [= <- <-]|].
  destruct (strndup _ _ _) as [txt|]; [|done]. cbn [mbind access_bind].
  unfold lex_title. cbn [root set_root text]. intros [= H].
  pose proof (lex_title_text_keeps txt (set_root dom {| text := txt |})) as [Htrie Hver].
  pose proof (lex_title_text_root txt (set_root dom {| text := txt |})) as Hroot.
  rewrite H in Htrie, Hver, Hroot. cbn [fst root trie version set_root] in *.
  split; [done|]. split; [done|]. intros ->.
  split; [by eapply lex_title_text_ok|]. split; [by eapply lex_title_text_section|].
  rewrite Hroot. by eexists.
Qed.

Lemma troff_loop_frame fuel : ∀ tr map mlen off line dom dom' st,
  troff_loop fuel tr map mlen off line dom = Val (dom', st) →
  trie dom' = trie dom ∧ version dom' = version dom ∧
  (st = Ret0 → title dom = None ∨ complete dom → complete dom').
Proof.
  induction fuel as [|fuel IH]; intros tr map mlen off line dom dom' st;
    cbn [troff_loop].
  - destruct (negb (off <? mlen)); [|done]. unfold dom_get_title.
    destruct (title dom) eqn:Ht; intros [= <- <-]; (split; [done|]); (split; [done|]);
      [|done]. intros _ [?|?]; [congruence|done].
  - destruct (negb (off <? mlen)).
    { unfold dom_get_title.
      destruct (title dom) eqn:Ht; intros [= <- <-]; (split; [done|]); (split; [done|]);
        [|done]. intros _ [?|?]; [congruence|done]. }
    unfold troff_turn.
    destruct (scan_line tr map mlen off line) as [[[[node ws] eol] feol]|f]; [|done].
    cbn [mbind access_bind].
    assert (∀ d1, trie d1 = trie dom → version d1 = version dom →
              (title dom = None ∨ complete dom → title d1 = None ∨ complete d1) →
              troff_loop fuel tr map mlen (off + (eol - line) + 1) (eol + 1) d1
                = Val (dom', st) →
              trie dom' = trie dom ∧ version dom' = version dom ∧
              (st = Ret0 → title dom = None ∨ complete dom → complete dom')) as Hnext.
    { intros d1 Ht Hv Hc Hl. apply IH in Hl as (Ht' & Hv' & Hc').
      split; [congruence|]. split; [congruence|]. auto. }
    destruct node as [t|]; [|by apply Hnext]. destruct (is_TH t); [|by apply Hnext].
    destruct (title_line map ws feol dom) as [[d1 st1]|] eqn:Htl; [|done].
    cbn [mbind access_bind]. apply title_line_frame in Htl as (Ht & Hv & Hc).
    destruct st1 as [|e]; [|by intros [= <- <-]].
    apply Hnext; [done|done|]. intros _. right. by apply Hc.
Qed.

(** X10. A parse changes neither the trie nor the version of the document,
    and when it succeeds on a document that had no title, the document has
    a title, a section and a root text. *)
Theorem troff_parse_complete map mlen dom dom' st :
  troff_parse map mlen dom = Val (dom', st) →
  trie dom' = trie dom ∧ version dom' = version dom ∧
  (st = Ret0 → title dom = None → complete dom').
Proof.
  unfold troff_parse. destruct (trie dom) as [tr|] eqn:Htr; [|done].
  intros H. apply troff_loop_frame in H as (Ht & Hv & Hc).
  rewrite <- Htr. split; [done|]. split; [done|]. intros -> Hn. apply Hc; auto.
Qed.

Lemma troff_parse_complete_witness :
  let map := bytes ".TH a b c" in
  let dom := set_trie empty_dom the_trie in
  ∃ dom', troff_parse map 9 dom = Val (dom', Ret0) ∧ complete dom'.
Proof.
  intros map dom.
  destruct (troff_parse map 9 dom) as [[dom' st]|] eqn:H; [|by vm_compute in H].
  assert (st = Ret0) as -> by (vm_compute in H; congruence).
  exists dom'. split; [done|].
  by apply (troff_parse_complete map 9 dom dom' Ret0 H).
Defined.

(** ** Title lexing on well-formed and on short texts *)

Lemma isspace_not_NUL c : isspace c = true → (c =? NUL) = false.
Proof. destruct c; [done|]. reflexivity. Qed.

Lemma isspace_not_DQUOTE c : isspace c = true → (c =? DQUOTE) = false.
Proof.
  unfold isspace, DQUOTE. intros H. apply Nat.eqb_neq. intros ->. done.
Qed.

Lemma skip_space_blanks sp s :
  Forall (λ c, isspace c = true) sp → isspace (peek s) = false →
  skip_space (sp ++ s) = s.
Proof.
  intros Hsp Hs. induction Hsp as [|c sp Hc _ IH]; cbn [app skip_space].
  - destruct s as [|c s]; [done|]. cbn [peek hd] in Hs. cbn [skip_space]. by rewrite Hs.
  - by rewrite Hc.
Qed.

Lemma scan_token_content q T c rest :
  Forall (λ c, token_byte q c = true) T →
  (if q then c =? DQUOTE else isspace c) = true →
  scan_token q (T ++ c :: rest) = (T, c :: rest, false).
Proof.
  intros HT Hc. induction HT as [|t T Ht _ IH]; cbn [app scan_token].
  - destruct q; cbn [negb].
    + rewrite Hc. apply Nat.eqb_eq in Hc as ->. done.
    + rewrite Hc. by rewrite isspace_not_NUL.
  - unfold token_byte in Ht.
    apply andb_true_iff in Ht as [[H1 H2]%andb_true_iff H3].
    apply negb_true_iff in H1, H2. rewrite H1, H2, IH.
    destruct q; cbn [negb]; [done|]. cbn [negb orb] in H3.
    apply negb_true_iff in H3. by rewrite H3.
Qed.

Lemma open_token_enc sp q t T rest :
  Forall (λ c, isspace c = true) sp →
  token_byte q t = true →
  open_token (sp ++ enc_token q (t :: T) ++ rest) =
    (t :: T ++ (if q then DQUOTE :: rest else rest), q).
Proof.
  intros Hsp Ht. unfold open_token, token_byte in *.
  apply andb_true_iff in Ht as [[H1 H2]%andb_true_iff H3].
  apply negb_true_iff in H1, H2.
  destruct q; cbn [enc_token].
  - cbn [app]. rewrite skip_space_blanks by done.
    cbn [peek hd tl]. rewrite Nat.eqb_refl. by rewrite <- app_assoc.
  - cbn [negb orb] in H3. apply negb_true_iff in H3.
    cbn [app]. rewrite skip_space_blanks by done. cbn [peek hd]. by rewrite H2.
Qed.

(** X12. Title lexing gives back what was written: for a title and a
    section, each either between double quotes or bare, each non-empty and
    free of NUL and of double quotes (and of blanks when bare), written
    after any blanks, with a blank between them and a blank after the
    section, the title and the section of the document are set to them. *)
Theorem lex_title_round_trip q1 q2 sp1 t T b sp2 s S w rest dom :
  Forall (λ c, isspace c = true) sp1 →
  Forall (λ c, token_byte q1 c = true) (t :: T) →
  isspace b = true → Forall (λ c, isspace c = true) sp2 →
  Forall (λ c, token_byte q2 c = true) (s :: S) →
  isspace w = true →
  lex_title_text
    (sp1 ++ enc_token q1 (t :: T) ++ b :: sp2 ++ enc_token q2 (s :: S) ++ w :: rest) dom
  = (set_section (set_title dom (t :: T)) (s :: S), Ret0).
Proof.
  intros Hsp1 [Ht HT]%Forall_cons Hb Hsp2 [Hs HS]%Forall_cons Hw.
  unfold lex_title_text. rewrite open_token_enc by done.
  assert (token_byte q1 t = true → (t =? NUL) = false) as Hnul1.
  { unfold token_byte. intros [[?%negb_true_iff _]%andb_true_iff _]%andb_true_iff. done. }
  assert (token_byte q2 s = true → (s =? NUL) = false) as Hnul2.
  { unfold token_byte. intros [[?%negb_true_iff _]%andb_true_iff _]%andb_true_iff. done. }
  cbn [peek hd tl]. rewrite Hnul1 by done.
  assert (scan_token q1
            (T ++ (if q1 then DQUOTE :: b :: sp2 ++ enc_token q2 (s :: S) ++ w :: rest
                   else b :: sp2 ++ enc_token q2 (s :: S) ++ w :: rest))
          = (T, (if q1 then DQUOTE :: b :: sp2 ++ enc_token q2 (s :: S) ++ w :: rest
                 else b :: sp2 ++ enc_token q2 (s :: S) ++ w :: rest), false)) as ->.
  { destruct q1; by apply scan_token_content. }
  assert (lex_section (set_title dom (t :: T))
            (s :: S ++ (if q2 then DQUOTE :: w :: rest else w :: rest)) q2
          = (set_section (set_title dom (t :: T)) (s :: S), Ret0)) as Hsec.
  { unfold lex_section. cbn [tl peek hd].
    assert (scan_token q2 (S ++ (if q2 then DQUOTE :: w :: rest else w :: rest))
            = (S, (if q2 then DQUOTE :: w :: rest else w :: rest), false)) as ->
      by (destruct q2; by apply scan_token_content).
    destruct q2; cbn [peek hd]; [done|]. by rewrite isspace_not_NUL. }
  destruct q1; cbn [peek hd tl negb].
  - rewrite (isspace_not_NUL b) by done.
    change (b :: sp2 ++ enc_token q2 (s :: S) ++ w :: rest)
      with ((b :: sp2) ++ enc_token q2 (s :: S) ++ w :: rest).
    rewrite open_token_enc by (done || by constructor).
    cbn [peek hd]. by rewrite Hnul2.
  - rewrite (isspace_not_NUL b) by done.
    destruct (enc_token q2 (s :: S) ++ w :: rest) as [|c0 l0] eqn:E.
    { destruct q2; done. }
    assert ((peek (sp2 ++ c0 :: l0) =? NUL) = false) as ->.
    { destruct sp2 as [|c1 sp2']; cbn [app peek hd].
      - destruct q2; cbn [enc_token app] in E; injection E as <- _; [done|by apply Hnul2].
      - apply isspace_not_NUL. by apply Forall_cons in Hsp2 as [? _]. }
    rewrite <- E. rewrite open_token_enc by done.
    cbn [peek hd]. by rewrite Hnul2.
Qed.

Lemma lex_title_round_trip_witness :
  lex_title_text
    ([32] ++ enc_token true (bytes "My Page") ++ 32 :: [] ++ enc_token false (bytes "3")
       ++ 32 :: bytes "2024") empty_dom
  = (set_section (set_title empty_dom (bytes "My Page")) (bytes "3"), Ret0).
Proof.
  apply (lex_title_round_trip true false [32] 77 (bytes "y Page") 32 [] 51 [] 32
           (bytes "2024") empty_dom);
    solve [reflexivity | vm_compute; repeat constructor].
Defined.

Lemma scan_token_open s :
  Forall (λ c, (c =? DQUOTE) = false) s →
  peek (scan_token true s).1.2 = NUL.
Proof.
  induction s as [|c s IH]; [done|]. intros [Hc Hs]%Forall_cons.
  cbn [scan_token negb]. destruct (c =? NUL) eqn:E.
  - apply Nat.eqb_eq in E as ->. done.
  - rewrite Hc. specialize (IH Hs).
    destruct (scan_token true s) as [[run e] q]. done.
Qed.

(** X13. A title whose opening double quote is never closed is refused as a
    title, and the document is left as it was. *)
Theorem lex_title_unterminated sp T dom :
  Forall (λ c, isspace c = true) sp →
  Forall (λ c, (c =? DQUOTE) = false) T →
  lex_title_text (sp ++ DQUOTE :: T) dom = (dom, RetErr TitleExtraction).
Proof.
  intros Hsp HT. unfold lex_title_text, open_token.
  rewrite skip_space_blanks by done. cbn [peek hd tl]. rewrite Nat.eqb_refl.
  destruct T as [|t T]; [reflexivity|]. cbn [peek hd tl].
  destruct (t =? NUL); [done|].
  apply Forall_cons in HT as [_ HT].
  pose proof (scan_token_open T HT) as Hp.
  destruct (scan_token true T) as [[run e] q]. cbn [fst snd] in Hp.
  by rewrite Hp.
Qed.

Lemma lex_title_unterminated_witness :
  lex_title_text ([32] ++ DQUOTE :: bytes "No End") empty_dom
    = (empty_dom, RetErr TitleExtraction).
Proof.
  apply lex_title_unterminated; vm_compute; repeat constructor.
Defined.

(** X14. A text that holds blanks only, or blanks and one bare token, is
    refused as a title, and the document is left as it was. *)
Theorem lex_title_one_token sp T dom :
  Forall (λ c, isspace c = true) sp →
  Forall (λ c, token_byte false c = true) T →
  lex_title_text (sp ++ T) dom = (dom, RetErr TitleExtraction).
Proof.
  intros Hsp HT. unfold lex_title_text, open_token.
  destruct T as [|t T].
  - rewrite app_nil_r.
    replace (skip_space sp) with (@nil nat); [done|].
    induction Hsp as [|c sp Hc _ IH]; [done|]. cbn [skip_space]. by rewrite Hc.
  - apply Forall_cons in HT as [Ht HT]. unfold token_byte in Ht.
    apply andb_true_iff in Ht as [[H1 H2]%andb_true_iff H3].
    apply negb_true_iff in H1, H2. cbn [negb orb] in H3. apply negb_true_iff in H3.
    rewrite skip_space_blanks by done. cbn [peek hd tl]. rewrite H2.
    cbn [peek hd tl]. rewrite H1.
    replace (scan_token false T) with (T, @nil nat, false); [reflexivity|].
    symmetry. apply scan_token_unquoted_run.
    eapply Forall_impl; [exact HT|]. intros c. unfold token_byte.
    intros [[?%negb_true_iff ?%negb_true_iff]%andb_true_iff ?%negb_true_iff]%andb_true_iff.
    done.
Qed.

Lemma lex_title_one_token_witness :
  lex_title_text ([32; 9] ++ bytes "lonely") empty_dom
    = (empty_dom, RetErr TitleExtraction).
Proof.
  apply lex_title_one_token; vm_compute; repeat constructor.
Defined.

(** ** What the loader holds and returns *)

(** X15. With the libdeflate implementation, [get_troff_data] that fails
    holds no mapping: each one it created is released once; and when it
    returns a region, this region was created once and is not released,
    and any other mapping it created is released once. *)
Theorem get_troff_data_holds_one e :
  match run (get_troff_data USE_DEFLATE e) with
  | (LoadFail _, log) => released_once log
  | (Loaded r _ _, log) =>
      created r log = 1 ∧ released r log = 0 ∧
      ∀ r', r' ≠ r → released r' log = created r' log
  end.
Proof.
  unfold run, get_troff_data, map_troff_data, map_gzipped_data,
    map_gzipped_data_deflate, munmap, emit, ret, mbind, M_bind.
  destruct (open_ok e); cbn [negb]; [|by intros []].
  destruct (fstat_ok e); cbn [negb]; [|by intros []].
  destruct (st_size e <? 18)%Z; [by intros []|].
  destruct (mmap_file_ok e); cbn [negb]; [|by intros []].
  destruct (gzip_magic (contents e)).
  - destruct (mmap_anon_ok e); cbn [negb app]; [|by intros []].
    destruct (inflate e) as [| |out]; cbn [app]; [by intros []..|].
    split; [done|]. split; [done|]. by intros [].
  - cbn [app]. split; [done|]. split; [done|]. by intros [].
Qed.

Lemma page_round_up u : (0 ≤ u → u ≤ (u + pgsize - 1) / pgsize * pgsize)%Z.
Proof.
  unfold pgsize. intros H.
  pose proof (Z.div_mod (u + 4096 - 1) 4096 ltac:(lia)) as Hd.
  pose proof (Z.mod_pos_bound (u + 4096 - 1) 4096 ltac:(lia)) as Hm.
  lia.
Qed.

Lemma trailer_ulen_nonneg buf : (0 ≤ trailer_ulen buf)%Z.
Proof. unfold trailer_ulen. lia. Qed.

(** X16. The length that the loader returns is never more than the region
    it returns holds: the bytes of the file for a plain file, and for a
    gzip file the pages mapped for the length of the trailer. *)
Theorem get_troff_data_length_inside b e r data len log :
  run (get_troff_data b e) = (Loaded r data len, log) →
  (0 ≤ len)%Z ∧ Z.to_nat len ≤ length data.
Proof.
  unfold run, get_troff_data, map_troff_data, munmap, emit, ret, mbind, M_bind.
  destruct (open_ok e); cbn [negb]; [|done].
  destruct (fstat_ok e); cbn [negb]; [|done].
  destruct (st_size e <? 18)%Z; [done|].
  destruct (mmap_file_ok e); cbn [negb]; [|done].
  destruct (gzip_magic (contents e)).
  - destruct (mmap_anon_ok e); cbn [negb app]; [|done].
    destruct b; cbn [map_gzipped_data];
      unfold map_gzipped_data_deflate, map_gzipped_data_zlib, munmap, emit, ret, mbind, M_bind;
      destruct (inflate e) as [| |out]; cbn [app]; try done.
    intros [= <- <- <- <-].
    pose proof (trailer_ulen_nonneg (contents e)) as H0.
    pose proof (page_round_up _ H0) as Hr.
    split; [done|]. unfold inflated_region. rewrite length_app, length_replicate. lia.
  - intros [= <- <- <- <-]. unfold st_size. split; [lia|]. by rewrite Nat2Z.id.
Qed.

Lemma get_troff_data_length_inside_witness :
  (0 ≤ 11)%Z ∧ Z.to_nat 11 ≤ length (inflated_region (bytes ".TH a b c" ++ [NL; NL]) 11).
Proof.
  apply (get_troff_data_length_inside USE_DEFLATE gzip_env AnonMap _ _
           [Mmap FileMap; Inspect; Mmap AnonMap; Munmap FileMap]).
  vm_compute. reflexivity.
Defined.

Lemma map_troff_data_deflate_inflated_witness :
  run (map_troff_data USE_DEFLATE gzip_env) =
    (Loaded AnonMap (inflated_region (bytes ".TH a b c" ++ [NL; NL]) 11) 11,
     [Mmap FileMap; Inspect; Mmap AnonMap; Munmap FileMap]).
Proof.
  apply (map_troff_data_deflate_inflated gzip_env (bytes ".TH a b c" ++ [NL; NL]));
    solve [reflexivity | vm_compute; congruence].
Defined.

Lemma map_troff_data_not_inflated_witness :
  run (map_troff_data USE_ZLIB damaged_env) =
    (LoadFail DecompressFailed,
     [Mmap FileMap; Inspect; Mmap AnonMap; Munmap FileMap; Munmap AnonMap]).
Proof.
  apply (map_troff_data_not_inflated USE_ZLIB damaged_env);
    solve [reflexivity | vm_compute; congruence | intros out; discriminate].
Defined.

Lemma manloop_deflate_released_once_witness :
  released_once [Mmap FileMap; Inspect; Mmap AnonMap; Munmap FileMap; Munmap AnonMap].
Proof.
  apply (manloop_deflate_released_once gzip_env 0%Z). vm_compute. reflexivity.
Defined.

Lemma manloop_zlib_released_once_witness :
  released_once [Mmap FileMap; Inspect; Mmap AnonMap; Munmap FileMap; Munmap AnonMap].
Proof.
  apply (manloop_zlib_released_once damaged_env (-1)%Z).
  - left. intros out. discriminate.
  - vm_compute. reflexivity.
Defined.

(** X21. A session returns 0 exactly when the file is loaded, the parse of
    the loaded bytes succeeds and the user quits; every other way out of
    the session returns -1. *)
Theorem manloop_returns_0 b e :
  (run (manloop b e)).1 = Val 0%Z ↔
  ui e = Quit ∧
  ∃ r data len log d,
    run (get_troff_data b e) = (Loaded r data len, log) ∧
    troff_parse data (Z.to_nat len) (set_trie empty_dom the_trie) = Val (d, Ret0).
Proof.
  unfold run, manloop, mbind, M_bind. rewrite trofftrie_builds.
  destruct (get_troff_data b e []) as [[r data len|err] log] eqn:Hl.
  - unfold munmap, emit, ret, mbind, M_bind.
    destruct (troff_parse data (Z.to_nat len) (set_trie empty_dom the_trie))
      as [[d [|err]]|f] eqn:Hp; cbn [fst].
    + destruct (ui e) eqn:Hu; cbn [fst]; split; try done;
        try (by intros [? _]).
      intros _. split; [done|]. by exists r, data, len, log, d.
    + split; [done|]. intros (_ & r' & data' & len' & log' & d' & [= <- <- <- <-] & H).
      congruence.
    + split; [done|]. intros (_ & r' & data' & len' & log' & d' & [= <- <- <- <-] & H).
      congruence.
  - cbn [fst]. split; [done|]. by intros (_ & r' & data' & len' & log' & d' & ? & _).
Qed.

(** ** The files of a run *)

Lemma manloop_deflate_session e v log :
  manloop USE_DEFLATE e [] = (Val v, log) → released_once log.
Proof.
  unfold manloop, get_troff_data, map_troff_data, map_gzipped_data,
    map_gzipped_data_deflate, munmap, emit, ret, mbind, M_bind.
  rewrite trofftrie_builds.
  destruct (open_ok e); cbn [negb]; [|intros [= _ <-]; by intros []].
  destruct (fstat_ok e); cbn [negb]; [|intros [= _ <-]; by intros []].
  destruct (st_size e <? 18)%Z; [intros [= _ <-]; by intros []|].
  destruct (mmap_file_ok e); cbn [negb]; [|intros [= _ <-]; by intros []].
  destruct (gzip_magic (contents e)).
  - destruct (mmap_anon_ok e); cbn [negb app]; [|intros [= _ <-]; by intros []].
    destruct (inflate e) as [| |out]; cbn [app];
      [intros [= _ <-]; by intros []..|].
    destruct (troff_parse _ _ _) as [[d [|err]]|f]; [| |done].
    + destruct (ui e); intros [= _ <-]; by intros [].
    + intros [= _ <-]; by intros [].
  - cbn [app].
    destruct (troff_parse _ _ _) as [[d [|err]]|f]; [| |done].
    + destruct (ui e); intros [= _ <-]; by intros [].
    + intros [= _ <-]; by intros [].
Qed.

Lemma appends_ret {A} (a : A) : appends (ret a).
Proof. intros log. unfold ret. cbn [fst snd]. by rewrite app_nil_r. Qed.

Lemma appends_emit ev : appends (emit ev).
Proof. intros log. reflexivity. Qed.

Lemma appends_bind {A B} (m : M A) (k : A → M B) :
  appends m → (∀ a, appends (k a)) → appends (m ≫= k).
Proof.
  intros Hm Hk log. unfold mbind, M_bind.
  rewrite (Hm log). destruct (m []) as [a l1]. cbn [fst snd].
  rewrite (Hk a (log ++ l1)), (Hk a l1). destruct (k a []) as [b0 l2].
  cbn [fst snd]. by rewrite app_assoc.
Qed.

Ltac appends_step :=
  match goal with
  | |- appends (mbind _ _) => apply appends_bind; [|intros ?]
  | |- appends (ret _) => apply appends_ret
  | |- appends (emit _) => apply appends_emit
  | |- appends (munmap _) => apply appends_emit
  | |- appends (if ?c then _ else _) => destruct c
  | |- appends (match ?x with _ => _ end) => destruct x
  end.

Lemma appends_map_gzipped_data b e buf ubuf ulen :
  appends (map_gzipped_data b e buf ubuf ulen).
Proof.
  destruct b; cbn [map_gzipped_data];
    unfold map_gzipped_data_deflate, map_gzipped_data_zlib; repeat appends_step.
Qed.

Lemma appends_get_troff_data b e : appends (get_troff_data b e).
Proof.
  unfold get_troff_data, map_troff_data. cbv zeta.
  repeat first [apply appends_map_gzipped_data | appends_step].
Qed.

Lemma appends_manloop b e : appends (manloop b e).
Proof.
  unfold manloop. cbv zeta.
  apply appends_bind; [apply appends_get_troff_data|intros l].
  destruct l; [|apply appends_ret].
  destruct trofftrie; [repeat appends_step|].
  destruct (troff_parse _ _ _) as [[d [|err]]|f]; repeat appends_step.
Qed.

Lemma appends_main_loop b files : ∀ success, appends (main_loop b files success).
Proof.
  induction files as [|e files IH]; intros success; cbn [main_loop].
  - apply appends_ret.
  - apply appends_bind; [apply appends_manloop|intros [v|f]]; [|apply appends_ret].
    destruct (v =? 0)%Z; [apply IH|apply appends_ret].
Qed.

Lemma main_loop_true b files : ∀ success,
  (run (main_loop b files success)).1 = Val true ↔
  (files = [] ∧ success = true) ∨
  (files ≠ [] ∧ Forall (λ e, (run (manloop b e)).1 = Val 0%Z) files).
Proof.
  unfold run. induction files as [|e files IH]; intros success.
  - cbn [main_loop]. unfold ret. cbn [fst]. split.
    + intros [= ->]. by left.
    + intros [[_ ->]|[? _]]; done.
  - cbn [main_loop]. unfold mbind at 1, M_bind at 1.
    destruct (manloop b e []) as [r l1] eqn:Hm.
    destruct r as [v|f].
    + destruct (v =? 0)%Z eqn:Hv.
      * apply Z.eqb_eq in Hv as ->.
        rewrite (appends_main_loop b files true l1). cbn [fst]. rewrite IH. split.
        -- intros H. right. split; [done|]. constructor; [by rewrite Hm|].
           destruct H as [[-> _]|[_ H]]; [constructor|done].
        -- intros [[? _]|[_ [_ H]%Forall_cons]]; [done|].
           destruct files; [by left|by right].
      * apply Z.eqb_neq in Hv. unfold ret. cbn [fst]. split; [done|].
        intros [[? _]|[_ [H _]%Forall_cons]]; [done|].
        rewrite Hm in H. cbn [fst] in H. congruence.
    + unfold ret. cbn [fst]. split; [done|].
      intros [[? _]|[_ [H _]%Forall_cons]]; [done|]. by rewrite Hm in H.
Qed.

(** X22. [main] returns [EXIT_SUCCESS] exactly when the arguments are
    accepted, the terminal is initialised, every file given gives a session
    that returns 0, and the terminal is stopped without an error. *)
Theorem main_exit_success b nonopt init_ok first others stop :
  (run (main b nonopt init_ok first others stop)).1 = Val EXIT_SUCCESS ↔
  (0 < nonopt)%Z ∧ init_ok = true ∧ stop = 0%Z ∧
  Forall (λ e, (run (manloop b e)).1 = Val 0%Z) (first :: others).
Proof.
  unfold main. destruct (nonopt <=? 0)%Z eqn:Hn.
  { apply Z.leb_le in Hn. unfold run, ret. cbn [fst]. split; [done|]. lia. }
  apply Z.leb_gt in Hn. destruct init_ok; cbn [negb].
  2:{ unfold run, ret. cbn [fst]. split; [done|]. by intros (_ & ? & _). }
  pose proof (main_loop_true b (first :: others) false) as Hv.
  unfold run in *. unfold mbind, M_bind.
  destruct (main_loop b (first :: others) false []) as [r l] eqn:Hl. cbn [fst] in Hv.
  assert (r = Val true ↔ Forall (λ e, (manloop b e []).1 = Val 0%Z) (first :: others))
    as Hr.
  { rewrite Hv. split; [by intros [[? _]|[_ ?]]|]. intros H. by right. }
  clear Hv Hl. destruct r as [[|]|f]; unfold ret; cbn [fst negb].
  - rewrite orb_false_r. destruct (stop =? 0)%Z eqn:Hs; cbn [negb].
    + apply Z.eqb_eq in Hs. split; [|done]. intros _.
      split; [lia|]. split; [done|]. split; [done|]. by apply Hr.
    + apply Z.eqb_neq in Hs. split; [done|]. by intros (_ & _ & ? & _).
  - rewrite orb_true_r. split; [done|]. intros (_ & _ & _ & H). by apply Hr in H.
  - split; [done|]. intros (_ & _ & _ & H). by apply Hr in H.
Qed.

Lemma released_app r l1 l2 : released r (l1 ++ l2) = released r l1 + released r l2.
Proof. unfold released. by rewrite filter_app, length_app. Qed.

Lemma created_app r l1 l2 : created r (l1 ++ l2) = created r l1 + created r l2.
Proof. unfold created. by rewrite filter_app, length_app. Qed.

Lemma main_loop_released_once files : ∀ success r log,
  run (main_loop USE_DEFLATE files success) = (Val r, log) → released_once log.
Proof.
  unfold run. induction files as [|e files IH]; intros success r log; cbn [main_loop].
  - intros [= _ <-]. by intros [].
  - unfold mbind at 1, M_bind at 1.
    destruct (manloop USE_DEFLATE e []) as [[v|f] l1] eqn:Hm; [|done].
    apply manloop_deflate_session in Hm.
    destruct (v =? 0)%Z.
    + rewrite (appends_main_loop USE_DEFLATE files true l1).
      destruct (main_loop USE_DEFLATE files true []) as [r2 l2] eqn:Hl. cbn [fst snd].
      intros [= -> <-]. apply IH in Hl. intros rg.
      by rewrite released_app, created_app, Hm, Hl.
    + by intros [= _ <-].
Qed.

(** X23. With the libdeflate implementation a run of [main] that returns
    holds no mapping when it ends, however many files it was given and
    whichever of them failed: each mapping created was released once. *)
Theorem main_released_once nonopt init_ok first others stop r log :
  run (main USE_DEFLATE nonopt init_ok first others stop) = (Val r, log) →
  released_once log.
Proof.
  unfold main, run. destruct (nonopt <=? 0)%Z; [intros [= _ <-]; by intros []|].
  destruct init_ok; cbn [negb]; [|intros [= _ <-]; by intros []].
  unfold mbind, M_bind.
  destruct (main_loop USE_DEFLATE (first :: others) false []) as [[s|f] l] eqn:Hl;
    [|done].
  apply main_loop_released_once in Hl. by intros [= _ <-].
Qed.

Lemma main_released_once_witness :
  released_once (run (main USE_DEFLATE 1 true gzip_env [damaged_env; gzip_env] 0)).2.
Proof.
  apply (main_released_once 1 true gzip_env [damaged_env; gzip_env] 0 EXIT_FAILURE).
  vm_compute. reflexivity.
Defined.

(** X24. The files after the first one whose session fails are not
    opened: the log of the run is that of the sessions up to this one. *)
Theorem main_loop_stops b pre e post success v :
  Forall (λ e, (run (manloop b e)).1 = Val 0%Z) pre →
  (run (manloop b e)).1 = Val v → v ≠ 0%Z →
  run (main_loop b (pre ++ e :: post) success) =
    (Val false, concat ((λ e, (run (manloop b e)).2) <$> (pre ++ [e]))).
Proof.
  unfold run. intros Hpre He Hv. revert success.
  induction Hpre as [|e0 pre H0 _ IH]; intros success; cbn [app main_loop].
  - unfold mbind, M_bind. destruct (manloop b e []) as [r l] eqn:Hm.
    cbn [fst snd] in *. subst r.
    replace (v =? 0)%Z with false by (symmetry; by apply Z.eqb_neq).
    unfold ret. cbn [fmap list_fmap concat]. by rewrite Hm, app_nil_r.
  - unfold mbind at 1, M_bind at 1. destruct (manloop b e0 []) as [r l] eqn:Hm.
    cbn [fst snd] in *. subst r. cbn [Z.eqb].
    rewrite (appends_main_loop b (pre ++ e :: post) true l).
    rewrite IH. cbn [fst snd]. rewrite fmap_cons. cbn [concat]. by rewrite Hm.
Qed.

Lemma main_loop_stops_witness :
  run (main_loop USE_DEFLATE ([gzip_env] ++ damaged_env :: [gzip_env]) false) =
    (Val false,
     concat ((λ e, (run (manloop USE_DEFLATE e)).2) <$> ([gzip_env] ++ [damaged_env]))).
Proof.
  apply (main_loop_stops USE_DEFLATE [gzip_env] damaged_env [gzip_env] false (-1)%Z).
  - repeat constructor.
  - vm_compute. reflexivity.
  - done.
Defined.

(** ** The text of a title line *)

(** X25. When a title line is not refused as empty or as a duplicate, and
    the bytes between the delimiter and the functional end of the line hold
    no NUL, the text stored in the root node is these bytes, all of them and
    no other, and it is this text that is lexed. *)
Theorem title_line_text map ws e dom :
  title dom = None →
  ws + 1 < e → e ≤ length map → (Z.of_nat e < 2 ^ 64)%Z →
  Forall (λ c, (c =? NUL) = false) (span map (ws + 1) e) →
  title_line map ws (Z.of_nat e) dom =
    lex_title (set_root dom {| text := span map (ws + 1) e |}).
Proof.
  intros Ht Hlt Hlen Hsz Hnul. unfold title_line, dom_get_title. rewrite Ht.
  replace (Z.of_nat ws =? Z.of_nat e)%Z with false by (symmetry; apply Z.eqb_neq; lia).
  replace (Z.of_nat ws + 1 =? Z.of_nat e)%Z with false by (symmetry; apply Z.eqb_neq; lia).
  cbn [orb]. unfold to_size_t. rewrite Z.mod_small by lia.
  replace (Z.of_nat e - (Z.of_nat ws + 1))%Z with (Z.of_nat (e - (ws + 1))) by lia.
  unfold strndup. rewrite strndup_loop_plain; rewrite ?Nat2Z.id.
  - done.
  - lia.
  - rewrite length_drop. lia.
  - exact Hnul.
Qed.

Lemma title_line_text_witness :
  title_line (bytes ".TH a b c") 3 9%Z empty_dom =
    lex_title (set_root empty_dom {| text := bytes "a b c" |}).
Proof.
  apply (title_line_text (bytes ".TH a b c") 3 9 empty_dom);
    solve [reflexivity | vm_compute; lia | vm_compute; repeat constructor].
Defined.
